(** * mybench credential vault: key verification and AES-256-GCM field encryption

    A shallow embedding of the Go package [mybench/internal/crypto]
    ([NewVault], [HashPassword], [VerifyPassword], [Vault.Encrypt],
    [Vault.Decrypt]) and of [App.UnlockVault], together with models of the
    standard-library routines they call: [encoding/base64], [crypto/subtle],
    [crypto/aes], [crypto/cipher] (GCM) and [io.ReadFull].

    Go strings and byte slices are both sequences of bytes, so the
    conversions [[]byte(s)] and [string(b)] are the identity here. *)

From Stdlib Require Import String Strings.Byte.
From Stdlib Require Import List NArith ZArith Lia Bool.
Import ListNotations.

Local Open Scope N_scope.

(** ** Bytes *)

Abbreviation byte := Byte.byte.
Abbreviation bytes := (list Byte.byte).

(** Go's conversion [byte(n)] of an unsigned integer: truncation to 8 bits. *)
Definition byte_of_N (n : N) : byte :=
  match Byte.of_N (n mod 256) with
  | Some b => b
  | None => x00
  end.

Definition xor_byte (a b : byte) : byte :=
  byte_of_N (N.lxor (Byte.to_N a) (Byte.to_N b)).

(** [subtle.XORBytes]: xor of the two slices up to the shorter length. *)
Fixpoint xor_bytes (a b : bytes) : bytes :=
  match a, b with
  | x :: a', y :: b' => xor_byte x y :: xor_bytes a' b'
  | _, _ => []
  end.

(** [len(s)] as an unsigned machine integer. *)
Definition len {A} (l : list A) : N := N.of_nat (length l).

(** ** Outcomes of a Go call: a normal return or a run-time panic *)

Inductive outcome (A : Type) : Type :=
| Returns (a : A)
| Panics (msg : string).
Arguments Returns {A} a.
Arguments Panics {A} msg.

Definition bind {A B} (m : outcome A) (k : A -> outcome B) : outcome B :=
  match m with
  | Returns a => k a
  | Panics msg => Panics msg
  end.

Notation "x <- m ;; k" := (bind m (fun x => k))
  (at level 61, m at next level, right associativity).

(** Go error values that can reach the vault's callers.  An [error] result
    is an [option error], with [None] for Go's [nil]. *)
Inductive error : Type :=
| CorruptInputError                 (* encoding/base64 *)
| KeySizeError (n : N)              (* crypto/aes *)
| errOpen                           (* crypto/cipher: message authentication failed *)
| EOF                               (* io *)
| ErrUnexpectedEOF                  (* io *)
| errorString (msg : string)        (* errors.New *)
| sqlError (msg : string).          (* database/sql *)

(** A library call returning [(T, error)] where exactly one side is set. *)
Inductive result (A : Type) : Type :=
| Ok (a : A)
| Err (e : error).
Arguments Ok {A} a.
Arguments Err {A} e.

(** ** encoding/base64, [StdEncoding] *)

Module base64.

Definition encodeStd : bytes :=
  Eval cbv in list_byte_of_string
    "ABCDEFGHIJKLMNOPQRSTUVWXYZabcdefghijklmnopqrstuvwxyz0123456789+/".

Definition padChar : byte := "=".

Definition encode (i : N) : byte := nth (N.to_nat i) encodeStd x00.

Fixpoint index_of (c : byte) (l : bytes) (i : N) : N :=
  match l with
  | [] => 255
  | x :: l' => if Byte.eqb x c then i else index_of c l' (i + 1)
  end.

(** The 256-entry table built by [NewEncoding]: [0xff] marks bytes outside
    the alphabet. *)
Definition decodeMap (c : byte) : N := index_of c encodeStd 0.

(** [EncodeToString]: three source bytes become four alphabet characters;
    a remainder of one or two bytes is padded with [=]. *)
Fixpoint EncodeToString (src : bytes) : bytes :=
  match src with
  | [] => []
  | [a] =>
      let val := N.shiftl (Byte.to_N a) 16 in
      [encode (N.land (N.shiftr val 18) 63);
       encode (N.land (N.shiftr val 12) 63);
       padChar; padChar]
  | [a; b] =>
      let val := N.lor (N.shiftl (Byte.to_N a) 16) (N.shiftl (Byte.to_N b) 8) in
      [encode (N.land (N.shiftr val 18) 63);
       encode (N.land (N.shiftr val 12) 63);
       encode (N.land (N.shiftr val 6) 63);
       padChar]
  | a :: b :: c :: rest =>
      let val := N.lor (N.lor (N.shiftl (Byte.to_N a) 16)
                              (N.shiftl (Byte.to_N b) 8)) (Byte.to_N c) in
      encode (N.land (N.shiftr val 18) 63)
      :: encode (N.land (N.shiftr val 12) 63)
      :: encode (N.land (N.shiftr val 6) 63)
      :: encode (N.land val 63)
      :: EncodeToString rest
  end.

Definition isNewline (c : byte) : bool :=
  Byte.eqb c x0a || Byte.eqb c x0d.

Fixpoint skipNewlines (src : bytes) : bytes :=
  match src with
  | c :: rest => if isNewline c then skipNewlines rest else src
  | [] => []
  end.

(** The tail of [decodeQuantum]: the (up to four) 6-bit digits collected in
    [dbuf] are packed into 24 bits and the first [dlen - 1] bytes kept. *)
Definition quantum (dbuf : list N) (dlen : nat) : bytes :=
  let d i := nth i dbuf 0 in
  let val := N.lor (N.lor (N.lor (N.shiftl (d 0%nat) 18) (N.shiftl (d 1%nat) 12))
                          (N.shiftl (d 2%nat) 6)) (d 3%nat) in
  firstn (dlen - 1)
    [byte_of_N (N.shiftr val 16); byte_of_N (N.shiftr val 8); byte_of_N val].

Definition prepend (out : bytes) (r : bytes * option error) : bytes * option error :=
  (out ++ fst r, snd r).

(** [Decode] by repeated [decodeQuantum] (the word-at-a-time fast paths of the
    library compute the same result).  [dbuf] holds the digits of the current
    quantum.  Line feeds and carriage returns are skipped; padding is only
    accepted after two or three digits and must end the input.  The byte
    offset carried by [CorruptInputError] is not modelled.  As in Go, the
    bytes decoded before an error are returned along with it. *)
Fixpoint decode (src : bytes) (dbuf : list N) : bytes * option error :=
  match src with
  | [] =>
      match dbuf with
      | [] => ([], None)
      | _ => ([], Some CorruptInputError)
      end
  | c :: rest =>
      let out := decodeMap c in
      if negb (out =? 255) then
        let dbuf' := (dbuf ++ [out])%list in
        if Nat.eqb (length dbuf') 4
        then prepend (quantum dbuf' 4) (decode rest [])
        else decode rest dbuf'
      else if isNewline c then decode rest dbuf
      else if negb (Byte.eqb c padChar) then ([], Some CorruptInputError)
      else
        match length dbuf with
        | 0%nat | 1%nat => ([], Some CorruptInputError)
        | 2%nat =>
            match skipNewlines rest with
            | [] => ([], Some CorruptInputError)
            | c' :: rest' =>
                if negb (Byte.eqb c' padChar) then ([], Some CorruptInputError)
                else
                  match skipNewlines rest' with
                  | [] => (quantum dbuf 2, None)
                  | _ => (quantum dbuf 2, Some CorruptInputError)
                  end
            end
        | j =>
            match skipNewlines rest with
            | [] => (quantum dbuf j, None)
            | _ => (quantum dbuf j, Some CorruptInputError)
            end
        end
  end.

Definition DecodeString (s : bytes) : bytes * option error := decode s [].

End base64.

(** ** crypto/subtle *)

Module subtle.

(** [ConstantTimeCompare]: 0 at once when the lengths differ; otherwise the
    xor of every pair of bytes is or-ed into [v], and the result is 1
    exactly when [v] stays 0. *)
Fixpoint accumulate (x y : bytes) (v : N) : N :=
  match x, y with
  | a :: x', b :: y' =>
      accumulate x' y' (N.lor v (N.lxor (Byte.to_N a) (Byte.to_N b)))
  | _, _ => v
  end.

(** [int((uint32(x^y) - 1) >> 31)], the subtraction wrapping at 32 bits. *)
Definition ConstantTimeByteEq (x y : N) : N :=
  N.shiftr ((N.lxor x y + (2 ^ 32 - 1)) mod 2 ^ 32) 31.

Definition ConstantTimeCompare (x y : bytes) : N :=
  if negb (len x =? len y) then 0
  else ConstantTimeByteEq (accumulate x y 0) 0.

End subtle.

(** ** crypto/aes: the block cipher of FIPS 197

    The state is kept as sixteen byte values in input order (column after
    column).  The library's table-driven code computes the same function. *)

Module aes.

(** Multiplication by x in GF(2^8) modulo x^8 + x^4 + x^3 + x + 1. *)
Definition xtime (a : N) : N :=
  N.land (N.lxor (N.shiftl a 1) (if N.testbit a 7 then 27 else 0)) 255.

Fixpoint gmul_loop (n : nat) (a b acc : N) : N :=
  match n with
  | O => acc
  | S n' =>
      gmul_loop n' (xtime a) (N.shiftr b 1)
                (if N.testbit b 0 then N.lxor acc a else acc)
  end.

Definition gmul (a b : N) : N := gmul_loop 8 a b 0.

Fixpoint gpow (a : N) (n : nat) : N :=
  match n with
  | O => 1
  | S n' => gmul a (gpow a n')
  end.

(** Multiplicative inverse (0 is mapped to 0): a^254. *)
Definition ginv (a : N) : N := gpow a 254.

Definition rotl8 (a : N) (k : N) : N :=
  N.land (N.lor (N.shiftl a k) (N.shiftr a (8 - k))) 255.

Definition sbox_formula (a : N) : N :=
  let b := ginv a in
  N.lxor (N.lxor (N.lxor (N.lxor (N.lxor b (rotl8 b 1)) (rotl8 b 2))
                         (rotl8 b 3)) (rotl8 b 4)) 99.

(** The S-box as a table, [sbox0] in the library. *)
Definition sbox0 : list N :=
  Eval vm_compute in map (fun i => sbox_formula (N.of_nat i)) (seq 0 256).

Definition sbox (a : N) : N := nth (N.to_nat a) sbox0 0.

Definition SubBytes (st : list N) : list N := map sbox st.

Definition ShiftRows (st : list N) : list N :=
  map (fun i => nth i st 0)
      [0; 5; 10; 15; 4; 9; 14; 3; 8; 13; 2; 7; 12; 1; 6; 11]%nat.

Definition mixColumn (a0 a1 a2 a3 : N) : list N :=
  [N.lxor (N.lxor (N.lxor (gmul a0 2) (gmul a1 3)) a2) a3;
   N.lxor (N.lxor (N.lxor a0 (gmul a1 2)) (gmul a2 3)) a3;
   N.lxor (N.lxor (N.lxor a0 a1) (gmul a2 2)) (gmul a3 3);
   N.lxor (N.lxor (N.lxor (gmul a0 3) a1) a2) (gmul a3 2)].

Fixpoint MixColumns (st : list N) : list N :=
  match st with
  | a0 :: a1 :: a2 :: a3 :: rest => mixColumn a0 a1 a2 a3 ++ MixColumns rest
  | _ => []
  end.

Fixpoint xor_list (a b : list N) : list N :=
  match a, b with
  | x :: a', y :: b' => N.lxor x y :: xor_list a' b'
  | _, _ => []
  end.

Definition AddRoundKey (st rk : list N) : list N := xor_list st rk.

(** Key expansion.  [w] is the list of 4-byte words produced so far. *)
Definition RotWord (w : list N) : list N :=
  match w with
  | a :: rest => rest ++ [a]
  | [] => []
  end.

Definition SubWord (w : list N) : list N := map sbox w.

Definition Rcon (j : nat) : list N := [gpow 2 (j - 1)%nat; 0; 0; 0].

Fixpoint expand (n i Nk : nat) (w : list (list N)) : list (list N) :=
  match n with
  | O => w
  | S n' =>
      let temp := nth (i - 1)%nat w [] in
      let temp' :=
        if Nat.eqb (Nat.modulo i Nk) 0
        then xor_list (SubWord (RotWord temp)) (Rcon (Nat.div i Nk))
        else if Nat.ltb 6 Nk && Nat.eqb (Nat.modulo i Nk) 4
             then SubWord temp
             else temp in
      expand n' (S i) Nk (w ++ [xor_list (nth (i - Nk)%nat w []) temp'])
  end.

Fixpoint words (key : list N) : list (list N) :=
  match key with
  | a :: b :: c :: d :: rest => [a; b; c; d] :: words rest
  | _ => []
  end.

(** The expanded encryption key: 4 * (Nr + 1) words with Nr = Nk + 6. *)
Definition expandKey (key : list N) : list (list N) :=
  let Nk := length (words key) in
  expand (4 * (Nk + 7) - Nk)%nat Nk Nk (words key).

(** A [cipher.Block] made by this package: the expanded key. *)
Record Block : Type := { enc : list (list N) }.

Definition roundKey (b : Block) (r : nat) : list N :=
  concat (firstn 4 (skipn (4 * r)%nat (enc b))).

Definition rounds (b : Block) : nat := (Nat.div (length (enc b)) 4 - 1)%nat.

Fixpoint middleRounds (b : Block) (n r : nat) (st : list N) : list N :=
  match n with
  | O => st
  | S n' =>
      middleRounds b n' (S r)
        (AddRoundKey (MixColumns (ShiftRows (SubBytes st))) (roundKey b r))
  end.

(** [Block.Encrypt] on one 16-byte block. *)
Definition Encrypt (b : Block) (src : bytes) : bytes :=
  let st := AddRoundKey (map Byte.to_N (firstn 16 src)) (roundKey b 0%nat) in
  let st := middleRounds b (rounds b - 1)%nat 1%nat st in
  let st := AddRoundKey (ShiftRows (SubBytes st)) (roundKey b (rounds b)) in
  map byte_of_N st.

Definition BlockSize (b : Block) : N := 16.

(** [NewCipher]: only 16, 24 and 32 byte keys are accepted. *)
Definition NewCipher (key : bytes) : result Block :=
  let k := len key in
  if (k =? 16) || (k =? 24) || (k =? 32)
  then Ok {| enc := expandKey (map Byte.to_N key) |}
  else Err (KeySizeError k).

End aes.

(** ** crypto/cipher: Galois/Counter Mode (NIST SP 800-38D)

    A 16-byte block is read as a 128-bit big-endian number, so the leftmost
    bit of the block is bit 127.  The library's 4-bit table multiplication
    computes the same product in GF(2^128). *)

Module cipher.

Definition gcmBlockSize : N := 16.
Definition gcmTagSize : N := 16.
Definition gcmMinimumTagSize : N := 12.
Definition gcmStandardNonceSize : N := 12.

Record gcm : Type := { cipher : aes.Block; nonceSize : N; tagSize : N }.

Definition errNewGCM : error :=
  errorString "cipher: NewGCM requires 128-bit block cipher".

Definition NewGCM (b : aes.Block) : result gcm :=
  if negb (aes.BlockSize b =? gcmBlockSize) then Err errNewGCM
  else Ok {| cipher := b; nonceSize := gcmStandardNonceSize;
             tagSize := gcmTagSize |}.

Definition NonceSize (g : gcm) : N := nonceSize g.

Definition be_to_N (bs : bytes) : N :=
  fold_left (fun acc b => acc * 256 + Byte.to_N b) bs 0.

Fixpoint N_to_be (n : nat) (v : N) : bytes :=
  match n with
  | O => []
  | S n' => N_to_be n' (v / 256) ++ [byte_of_N v]
  end.

Definition R : N := N.shiftl 225 120.

Fixpoint mul_loop (n : nat) (x z v : N) : N :=
  match n with
  | O => z
  | S n' =>
      mul_loop n' x
        (if N.testbit x (N.of_nat n') then N.lxor z v else z)
        (if N.testbit v 0 then N.lxor (N.shiftr v 1) R else N.shiftr v 1)
  end.

(** The product of two field elements. *)
Definition gf_mul (x y : N) : N := mul_loop 128 x 0 y.

(** The hash key H: the encryption of the zero block. *)
Definition hashKey (g : gcm) : N :=
  be_to_N (aes.Encrypt (cipher g) (repeat x00 16)).

Definition blockCount (data : bytes) : nat := Nat.div (length data + 15) 16.

Definition padBlock (blk : bytes) : bytes :=
  (blk ++ repeat x00 (16 - length blk))%list.

(** [update]: fold every 16-byte block of [data] (the last one padded with
    zeros) into [y]. *)
Fixpoint updateBlocks (n : nat) (h y : N) (data : bytes) : N :=
  match n with
  | O => y
  | S n' =>
      updateBlocks n' h
        (gf_mul (N.lxor y (be_to_N (padBlock (firstn 16 data)))) h)
        (skipn 16 data)
  end.

Definition update (g : gcm) (y : N) (data : bytes) : N :=
  updateBlocks (blockCount data) (hashKey g) y data.

(** [gcmInc32]: the last four bytes are a big-endian counter that wraps. *)
Definition gcmInc32 (counter : bytes) : bytes :=
  (firstn 12 counter
   ++ N_to_be 4 ((be_to_N (skipn 12 counter) + 1) mod 2 ^ 32))%list.

Definition deriveCounter (g : gcm) (nonce : bytes) : bytes :=
  if len nonce =? gcmStandardNonceSize
  then (nonce ++ [x00; x00; x00; x01])%list
  else
    let y := update g 0 nonce in
    N_to_be 16 (gf_mul (N.lxor y (len nonce * 8)) (hashKey g)).

(** [counterCrypt]: CTR mode starting at [counter]. *)
Fixpoint cryptBlocks (n : nat) (b : aes.Block) (input counter : bytes) : bytes :=
  match n with
  | O => []
  | S n' =>
      (xor_bytes (firstn 16 input) (aes.Encrypt b counter)
       ++ cryptBlocks n' b (skipn 16 input) (gcmInc32 counter))%list
  end.

Definition counterCrypt (g : gcm) (input counter : bytes) : bytes :=
  cryptBlocks (blockCount input) (cipher g) input counter.

(** [auth]: GHASH over the additional data, the ciphertext and the two bit
    lengths, masked with [tagMask]. *)
Definition auth (g : gcm) (ciphertext additionalData tagMask : bytes) : bytes :=
  let y := update g 0 additionalData in
  let y := update g y ciphertext in
  let y := N.lxor y (N.lor (N.shiftl (len additionalData * 8) 64)
                           (len ciphertext * 8)) in
  xor_bytes (N_to_be 16 (gf_mul y (hashKey g))) tagMask.

Definition maxPlaintext (g : gcm) : N := (2 ^ 32 - 2) * aes.BlockSize (cipher g).

(** [Seal] appends the ciphertext and the tag to [dst]. *)
Definition Seal (g : gcm) (dst nonce plaintext data : bytes) : outcome bytes :=
  if negb (len nonce =? nonceSize g)
  then Panics "crypto/cipher: incorrect nonce length given to GCM"
  else if maxPlaintext g <? len plaintext
  then Panics "crypto/cipher: message too large for GCM"
  else
    let counter := deriveCounter g nonce in
    let tagMask := aes.Encrypt (cipher g) counter in
    let counter := gcmInc32 counter in
    let out := counterCrypt g plaintext counter in
    let tag := auth g out data tagMask in
    Returns (dst ++ out ++ tag)%list.

(** [Open] checks the tag before it decrypts. *)
Definition Open (g : gcm) (dst nonce ciphertext data : bytes)
  : outcome (bytes * option error) :=
  if negb (len nonce =? nonceSize g)
  then Panics "crypto/cipher: incorrect nonce length given to GCM"
  else if tagSize g <? gcmMinimumTagSize
  then Panics "crypto/cipher: incorrect GCM tag size"
  else if len ciphertext <? tagSize g
  then Returns ([], Some errOpen)
  else if maxPlaintext g + tagSize g <? len ciphertext
  then Returns ([], Some errOpen)
  else
    let n := (length ciphertext - N.to_nat (tagSize g))%nat in
    let tag := skipn n ciphertext in
    let ciphertext := firstn n ciphertext in
    let counter := deriveCounter g nonce in
    let tagMask := aes.Encrypt (cipher g) counter in
    let counter := gcmInc32 counter in
    let expectedTag := auth g ciphertext data tagMask in
    if negb (subtle.ConstantTimeCompare
               (firstn (N.to_nat (tagSize g)) expectedTag) tag =? 1)
    then Returns ([], Some errOpen)
    else Returns ((dst ++ counterCrypt g ciphertext counter)%list, None).

End cipher.

(** ** io *)

Module io.

(** A byte source, given by the bytes it will still deliver.  For
    [crypto/rand.Reader] running out of bytes stands for a failure of the
    system's entropy source. *)
Definition Reader : Type := bytes.

(** [ReadFull r buf] fills [buf] completely or reports why it could not:
    [EOF] when nothing was read, [ErrUnexpectedEOF] after a partial read. *)
Definition ReadFull (r : Reader) (buf : bytes) : bytes * option error * Reader :=
  let n := length buf in
  if Nat.leb n (length r) then (firstn n r, None, skipn n r)
  else
    match r with
    | [] => (buf, Some EOF, [])
    | _ => ((r ++ skipn (length r) buf)%list, Some ErrUnexpectedEOF, [])
    end.

End io.

(** ** mybench/internal/crypto *)

Module crypto.

Definition saltLen : N := 16.
Definition keyLen : N := 32. (* AES-256 *)
Definition argonTime : N := 1.
Definition argonMem : N := 64 * 1024.
Definition argonParts : N := 4.

(** Vault holds the derived encryption key in memory. *)
Record Vault : Type := { key : bytes }.

Section Derivation.

(** [argon2.IDKey password salt time memory threads keyLen] of
    golang.org/x/crypto: a deterministic function of its arguments. *)
Variable IDKey : bytes -> bytes -> N -> N -> N -> N -> bytes.

(** NewVault derives an encryption key from the master password and salt. *)
Definition NewVault (password salt : bytes) : Vault :=
  let key := IDKey password salt argonTime argonMem argonParts keyLen in
  {| key := key |}.

(** HashPassword creates a verification hash of the master password. *)
Definition HashPassword (password salt : bytes) : bytes :=
  let hash := IDKey password salt argonTime argonMem argonParts keyLen in
  base64.EncodeToString hash.

(** VerifyPassword checks a password against a stored hash. *)
Definition VerifyPassword (password salt storedHash : bytes) : bool :=
  let hash := IDKey password salt argonTime argonMem argonParts keyLen in
  let '(decoded, err) := base64.DecodeString storedHash in
  match err with
  | Some _ => false
  | None => subtle.ConstantTimeCompare hash decoded =? 1
  end.

End Derivation.

(** GenerateSalt returns a random salt for key derivation. *)
Definition GenerateSalt (rand : io.Reader) : bytes * option error * io.Reader :=
  let salt := repeat x00 (N.to_nat saltLen) in
  let '(salt, err, rand) := io.ReadFull rand salt in
  match err with
  | Some e => ([], Some e, rand)
  | None => (salt, None, rand)
  end.

Definition errTooShort : error := errorString "ciphertext too short".

Definition errDecryptionFailed : error :=
  errorString "decryption failed: wrong master password or corrupted data".

(** Encrypt encrypts plaintext using AES-256-GCM.  Returns base64-encoded
    ciphertext with nonce prepended.  [rand] is the state of [rand.Reader]. *)
Definition Encrypt (v : Vault) (plaintext : bytes) (rand : io.Reader)
  : outcome (bytes * option error * io.Reader) :=
  if len plaintext =? 0 then Returns ([], None, rand)
  else
    match aes.NewCipher (key v) with
    | Err err => Returns ([], Some err, rand)
    | Ok block =>
        match cipher.NewGCM block with
        | Err err => Returns ([], Some err, rand)
        | Ok gcm =>
            let nonce := repeat x00 (N.to_nat (cipher.NonceSize gcm)) in
            let '(nonce, err, rand) := io.ReadFull rand nonce in
            match err with
            | Some err => Returns ([], Some err, rand)
            | None =>
                ciphertext <- cipher.Seal gcm nonce nonce plaintext [] ;;
                Returns (base64.EncodeToString ciphertext, None, rand)
            end
        end
    end.

(** Decrypt decrypts base64-encoded ciphertext produced by Encrypt. *)
Definition Decrypt (v : Vault) (encoded : bytes) : outcome (bytes * option error) :=
  if len encoded =? 0 then Returns ([], None)
  else
    let '(data, err) := base64.DecodeString encoded in
    match err with
    | Some err => Returns ([], Some err)
    | None =>
        match aes.NewCipher (key v) with
        | Err err => Returns ([], Some err)
        | Ok block =>
            match cipher.NewGCM block with
            | Err err => Returns ([], Some err)
            | Ok gcm =>
                let nonceSize := cipher.NonceSize gcm in
                if len data <? nonceSize then Returns ([], Some errTooShort)
                else
                  let nonce := firstn (N.to_nat nonceSize) data in
                  let ciphertext := skipn (N.to_nat nonceSize) data in
                  r <- cipher.Open gcm [] nonce ciphertext [] ;;
                  let '(plaintext, err) := r in
                  match err with
                  | Some _ => Returns ([], Some errDecryptionFailed)
                  | None => Returns (plaintext, None)
                  end
            end
        end
    end.

End crypto.

(** ** mybench/internal/store: the [app_config] table *)

Module store.

(** The rows of [app_config] ([key] is the primary key) and, for each key,
    the driver error its query fails with, if any. *)
Record Store : Type := {
  app_config : list (bytes * bytes);
  failure : bytes -> option error
}.

Fixpoint selectValue (key : bytes) (rows : list (bytes * bytes)) : option bytes :=
  match rows with
  | [] => None
  | (k, v) :: rows' =>
      if list_eq_dec Byte.byte_eq_dec k key then Some v
      else selectValue key rows'
  end.

(** GetConfig retrieves a config value by key; a missing row ([sql.ErrNoRows])
    is the empty string without error. *)
Definition GetConfig (s : Store) (key : bytes) : bytes * option error :=
  match failure s key with
  | Some err => ([], Some err)
  | None =>
      match selectValue key (app_config s) with
      | Some val => (val, None)
      | None => ([], None)
      end
  end.

(** [INSERT ... ON CONFLICT(key) DO UPDATE SET value = excluded.value]: the
    row of [key] gets the new value, or a new row is added. *)
Fixpoint upsertValue (key value : bytes) (rows : list (bytes * bytes))
  : list (bytes * bytes) :=
  match rows with
  | [] => [(key, value)]
  | (k, v) :: rows' =>
      if list_eq_dec Byte.byte_eq_dec k key then (k, value) :: rows'
      else (k, v) :: upsertValue key value rows'
  end.

(** SetConfig sets a config key-value pair.  The store after the call is
    returned along with the error. *)
Definition SetConfig (s : Store) (key value : bytes) : Store * option error :=
  match failure s key with
  | Some err => (s, Some err)
  | None =>
      ({| app_config := upsertValue key value (app_config s);
          failure := failure s |}, None)
  end.

(** ConnectionProfile represents a saved database connection. *)
Record ConnectionProfile : Type := {
  ID : bytes;
  Name : bytes;
  Host : bytes;
  Port : Z;
  Username : bytes;
  Password : bytes;
  DefaultDB : bytes;
  UseSSL : bool;
  SSHEnabled : bool;
  SSHHost : bytes;
  SSHPort : Z;
  SSHUser : bytes;
  SSHAuth : bytes;
  SSHKeyPath : bytes;
  SSHPass : bytes;
  SortOrder : Z;
  CreatedAt : bytes;
  UpdatedAt : bytes
}.

(** A row of the [connections] table ([id] is the primary key; the two
    flags are INTEGER columns). *)
Record connectionRow : Type := {
  id : bytes;
  name : bytes;
  host : bytes;
  port : Z;
  username : bytes;
  password : bytes;
  default_db : bytes;
  use_ssl : Z;
  ssh_enabled : Z;
  ssh_host : bytes;
  ssh_port : Z;
  ssh_user : bytes;
  ssh_auth : bytes;
  ssh_key_path : bytes;
  ssh_password : bytes;
  sort_order : Z;
  created_at : bytes;
  updated_at : bytes
}.

(** The [connections] table of the same database, with the driver error its
    queries fail with, if any. *)
Record Connections : Type := {
  connections : list connectionRow;
  connectionsFailure : option error
}.

(** Byte-wise order of TEXT values (SQLite's BINARY collation). *)
Fixpoint bytes_ltb (a b : bytes) : bool :=
  match a, b with
  | _, [] => false
  | [], _ :: _ => true
  | x :: a', y :: b' =>
      if Byte.to_N x <? Byte.to_N y then true
      else if Byte.to_N y <? Byte.to_N x then false
      else bytes_ltb a' b'
  end.

(** [ORDER BY sort_order, name]. *)
Definition rowLtb (r1 r2 : connectionRow) : bool :=
  (sort_order r1 <? sort_order r2)%Z
  || ((sort_order r1 =? sort_order r2)%Z && bytes_ltb (name r1) (name r2)).

Fixpoint insertRow (r : connectionRow) (sorted : list connectionRow)
  : list connectionRow :=
  match sorted with
  | [] => [r]
  | x :: rest => if rowLtb x r then x :: insertRow r rest else r :: sorted
  end.

(** The rows in query order.  SQL leaves the order of rows with equal keys
    open; here they keep their table order. *)
Definition orderRows (rows : list connectionRow) : list connectionRow :=
  fold_right insertRow [] rows.

Definition scanRow (r : connectionRow) : ConnectionProfile :=
  {| ID := id r; Name := name r; Host := host r; Port := port r;
     Username := username r; Password := password r;
     DefaultDB := default_db r;
     UseSSL := (use_ssl r =? 1)%Z; SSHEnabled := (ssh_enabled r =? 1)%Z;
     SSHHost := ssh_host r; SSHPort := ssh_port r; SSHUser := ssh_user r;
     SSHAuth := ssh_auth r; SSHKeyPath := ssh_key_path r;
     SSHPass := ssh_password r; SortOrder := sort_order r;
     CreatedAt := created_at r; UpdatedAt := updated_at r |}.

(** ListConnections returns all saved connection profiles ordered by
    sort_order. *)
Definition ListConnections (t : Connections)
  : list ConnectionProfile * option error :=
  match connectionsFailure t with
  | Some err => ([], Some err)
  | None => (map scanRow (orderRows (connections t)), None)
  end.

(** The values bound to the INSERT statement. *)
Definition rowOf (c : ConnectionProfile) : connectionRow :=
  {| id := ID c; name := Name c; host := Host c; port := Port c;
     username := Username c; password := Password c;
     default_db := DefaultDB c;
     use_ssl := if UseSSL c then 1%Z else 0%Z;
     ssh_enabled := if SSHEnabled c then 1%Z else 0%Z;
     ssh_host := SSHHost c; ssh_port := SSHPort c; ssh_user := SSHUser c;
     ssh_auth := SSHAuth c; ssh_key_path := SSHKeyPath c;
     ssh_password := SSHPass c; sort_order := SortOrder c;
     created_at := CreatedAt c; updated_at := UpdatedAt c |}.

(** [ON CONFLICT(id) DO UPDATE SET ...]: every column but [id] and
    [created_at] takes the new value. *)
Definition updateRow (old new : connectionRow) : connectionRow :=
  {| id := id old; name := name new; host := host new; port := port new;
     username := username new; password := password new;
     default_db := default_db new; use_ssl := use_ssl new;
     ssh_enabled := ssh_enabled new; ssh_host := ssh_host new;
     ssh_port := ssh_port new; ssh_user := ssh_user new;
     ssh_auth := ssh_auth new; ssh_key_path := ssh_key_path new;
     ssh_password := ssh_password new; sort_order := sort_order new;
     created_at := created_at old; updated_at := updated_at new |}.

Fixpoint upsertRow (new : connectionRow) (rows : list connectionRow)
  : list connectionRow :=
  match rows with
  | [] => [new]
  | r :: rows' =>
      if list_eq_dec Byte.byte_eq_dec (id r) (id new)
      then updateRow r new :: rows'
      else r :: upsertRow new rows'
  end.

(** SaveConnection creates or updates a connection profile.  [now] is the
    formatted current time and [newID] the string of a fresh UUID.  The
    profile is returned as the call leaves it; it is changed even when the
    statement fails. *)
Definition SaveConnection (t : Connections) (c : ConnectionProfile)
           (now newID : bytes)
  : ConnectionProfile * option error * Connections :=
  let c :=
    if list_eq_dec Byte.byte_eq_dec (ID c) []
    then {| ID := newID; Name := Name c; Host := Host c; Port := Port c;
            Username := Username c; Password := Password c;
            DefaultDB := DefaultDB c; UseSSL := UseSSL c;
            SSHEnabled := SSHEnabled c; SSHHost := SSHHost c;
            SSHPort := SSHPort c; SSHUser := SSHUser c;
            SSHAuth := SSHAuth c; SSHKeyPath := SSHKeyPath c;
            SSHPass := SSHPass c; SortOrder := SortOrder c;
            CreatedAt := now; UpdatedAt := UpdatedAt c |}
    else c in
  let c :=
    {| ID := ID c; Name := Name c; Host := Host c; Port := Port c;
       Username := Username c; Password := Password c;
       DefaultDB := DefaultDB c; UseSSL := UseSSL c;
       SSHEnabled := SSHEnabled c; SSHHost := SSHHost c;
       SSHPort := SSHPort c; SSHUser := SSHUser c;
       SSHAuth := SSHAuth c; SSHKeyPath := SSHKeyPath c;
       SSHPass := SSHPass c; SortOrder := SortOrder c;
       CreatedAt := CreatedAt c; UpdatedAt := now |} in
  match connectionsFailure t with
  | Some err => (c, Some err, t)
  | None =>
      (c, None,
       {| connections := upsertRow (rowOf c) (connections t);
          connectionsFailure := connectionsFailure t |})
  end.

(** DeleteConnection removes a connection profile by ID. *)
Definition DeleteConnection (t : Connections) (key : bytes)
  : option error * Connections :=
  match connectionsFailure t with
  | Some err => (Some err, t)
  | None =>
      (None,
       {| connections :=
            filter (fun r => if list_eq_dec Byte.byte_eq_dec (id r) key
                             then false else true) (connections t);
          connectionsFailure := connectionsFailure t |})
  end.

End store.

(** ** package database: what a live connection is opened with *)

Module database.


End database.

(** ** package main: the application object *)

Module main.

(** The fields of [App] that the vault methods touch.  Both are pointers and
    may be nil: [store] when [startup] could not open the database, [vault]
    until a master password is set or verified. *)
Record App : Type := {
  store : option store.Store;
  vault : option crypto.Vault
}.

Definition master_salt : bytes := Eval cbv in list_byte_of_string "master_salt".
Definition master_hash : bytes := Eval cbv in list_byte_of_string "master_hash".

Definition nilDereference : string :=
  "runtime error: invalid memory address or nil pointer dereference".

Section Derivation.

Variable IDKey : bytes -> bytes -> N -> N -> N -> N -> bytes.

(** UnlockVault verifies the master password and unlocks encryption. *)
Definition UnlockVault (a : App) (password : bytes)
  : outcome (bool * option error * App) :=
  match store a with
  | None => Panics nilDereference
  | Some s =>
      let '(saltB64, err) := store.GetConfig s master_salt in
      match err with
      | Some err => Returns (false, Some err, a)
      | None =>
          let '(salt, err) := base64.DecodeString saltB64 in
          match err with
          | Some err => Returns (false, Some err, a)
          | None =>
              let '(hash, err) := store.GetConfig s master_hash in
              match err with
              | Some err => Returns (false, Some err, a)
              | None =>
                  if negb (crypto.VerifyPassword IDKey password salt hash)
                  then Returns (false, None, a)
                  else
                    Returns (true, None,
                             {| store := store a;
                                vault := Some (crypto.NewVault IDKey password salt) |})
              end
          end
      end
  end.

(** SetMasterPassword sets the master password for the first time.  [rand]
    is the state of [rand.Reader]. *)
Definition SetMasterPassword (a : App) (password : bytes) (rand : io.Reader)
  : outcome (option error * App * io.Reader) :=
  let '(salt, err, rand) := crypto.GenerateSalt rand in
  match err with
  | Some err => Returns (Some err, a, rand)
  | None =>
      let hash := crypto.HashPassword IDKey password salt in
      let saltB64 := base64.EncodeToString salt in
      match store a with
      | None => Panics nilDereference
      | Some s =>
          let '(s, err) := store.SetConfig s master_salt saltB64 in
          match err with
          | Some err =>
              Returns (Some err, {| store := Some s; vault := vault a |}, rand)
          | None =>
              let '(s, err) := store.SetConfig s master_hash hash in
              match err with
              | Some err =>
                  Returns (Some err, {| store := Some s; vault := vault a |},
                           rand)
              | None =>
                  Returns (None,
                           {| store := Some s;
                              vault := Some (crypto.NewVault IDKey password salt) |},
                           rand)
              end
          end
      end
  end.

End Derivation.

(** HasMasterPassword returns true if a master password has been set. *)
Definition HasMasterPassword (a : App) : outcome (bool * option error) :=
  match store a with
  | None => Panics nilDereference
  | Some s =>
      let '(hash, err) := store.GetConfig s master_hash in
      match err with
      | Some err => Returns (false, Some err)
      | None =>
          Returns (if list_eq_dec Byte.byte_eq_dec hash [] then false else true,
                   None)
      end
  end.

(** IsUnlocked returns true if the vault has been unlocked. *)
Definition IsUnlocked (a : App) : bool :=
  match vault a with
  | Some _ => true
  | None => false
  end.

(** ConnectionProfile mirrors the store type for Wails bindings. *)
Record ConnectionProfile : Type := {
  ID : bytes;
  Name : bytes;
  Host : bytes;
  Port : Z;
  Username : bytes;
  Password : bytes;
  DefaultDB : bytes;
  UseSSL : bool;
  SSHEnabled : bool;
  SSHHost : bytes;
  SSHPort : Z;
  SSHUser : bytes;
  SSHAuth : bytes;
  SSHKeyPath : bytes;
  SSHPass : bytes;
  SortOrder : Z
}.

(** One secret field of a listed profile: under [a.vault != nil],
    [if dec, err := a.vault.Decrypt(pwd); err == nil { pwd = dec }]. *)
Definition decryptField (v : option crypto.Vault) (pwd : bytes) : outcome bytes :=
  match v with
  | None => Returns pwd
  | Some v =>
      r <- crypto.Decrypt v pwd ;;
      match snd r with
      | None => Returns (fst r)
      | Some _ => Returns pwd
      end
  end.

Definition revealProfile (v : option crypto.Vault) (c : store.ConnectionProfile)
  : outcome ConnectionProfile :=
  pwd <- decryptField v (store.Password c) ;;
  sshPwd <- decryptField v (store.SSHPass c) ;;
  Returns
    {| ID := store.ID c; Name := store.Name c; Host := store.Host c;
       Port := store.Port c; Username := store.Username c;
       Password := pwd; DefaultDB := store.DefaultDB c;
       UseSSL := store.UseSSL c; SSHEnabled := store.SSHEnabled c;
       SSHHost := store.SSHHost c; SSHPort := store.SSHPort c;
       SSHUser := store.SSHUser c; SSHAuth := store.SSHAuth c;
       SSHKeyPath := store.SSHKeyPath c; SSHPass := sshPwd;
       SortOrder := store.SortOrder c |}.

Fixpoint revealAll (v : option crypto.Vault) (conns : list store.ConnectionProfile)
  : outcome (list ConnectionProfile) :=
  match conns with
  | [] => Returns []
  | c :: rest =>
      p <- revealProfile v c ;;
      ps <- revealAll v rest ;;
      Returns (p :: ps)
  end.

(** ListConnections returns all saved connection profiles with passwords
    decrypted.  [t] is the [connections] table behind [a.store]. *)
Definition ListConnections (a : App) (t : store.Connections)
  : outcome (list ConnectionProfile * option error) :=
  match store a with
  | None => Panics nilDereference
  | Some _ =>
      let '(conns, err) := store.ListConnections t in
      match err with
      | Some err => Returns ([], Some err)
      | None =>
          result <- revealAll (vault a) conns ;;
          Returns (result, None)
      end
  end.

(** One secret field of a saved profile: under [a.vault != nil],
    [if enc, err := a.vault.Encrypt(pwd); err == nil { pwd = enc }]. *)
Definition encryptField (v : option crypto.Vault) (pwd : bytes) (rand : io.Reader)
  : outcome (bytes * io.Reader) :=
  match v with
  | None => Returns (pwd, rand)
  | Some v =>
      r <- crypto.Encrypt v pwd rand ;;
      let '(enc, err, rand) := r in
      match err with
      | None => Returns (enc, rand)
      | Some _ => Returns (pwd, rand)
      end
  end.

(** SaveConnection saves a connection profile, encrypting passwords. *)
Definition SaveConnection (a : App) (t : store.Connections)
           (cp : ConnectionProfile) (rand : io.Reader) (now newID : bytes)
  : outcome (bytes * option error * store.Connections * io.Reader) :=
  r1 <- encryptField (vault a) (Password cp) rand ;;
  let '(pwd, rand) := r1 in
  r2 <- encryptField (vault a) (SSHPass cp) rand ;;
  let '(sshPwd, rand) := r2 in
  let sc :=
    {| store.ID := ID cp; store.Name := Name cp; store.Host := Host cp;
       store.Port := Port cp; store.Username := Username cp;
       store.Password := pwd; store.DefaultDB := DefaultDB cp;
       store.UseSSL := UseSSL cp; store.SSHEnabled := SSHEnabled cp;
       store.SSHHost := SSHHost cp; store.SSHPort := SSHPort cp;
       store.SSHUser := SSHUser cp; store.SSHAuth := SSHAuth cp;
       store.SSHKeyPath := SSHKeyPath cp; store.SSHPass := sshPwd;
       store.SortOrder := SortOrder cp;
       store.CreatedAt := []; store.UpdatedAt := [] |} in
  match store a with
  | None => Panics nilDereference
  | Some _ =>
      let '(sc, err, t) := store.SaveConnection t sc now newID in
      match err with
      | Some err => Returns ([], Some err, t, rand)
      | None => Returns (store.ID sc, None, t, rand)
      end
  end.

(** DeleteConnection removes a saved connection profile. *)
Definition DeleteConnection (a : App) (t : store.Connections) (key : bytes)
  : outcome (option error * store.Connections) :=
  match store a with
  | None => Panics nilDereference
  | Some _ => Returns (store.DeleteConnection t key)
  end.




End main.

(** * Vocabulary of the statements *)

(** ** Invariants of the values the library constructors return *)

Definition word4 (w : list N) : Prop := length w = 4%nat.

(** What [aes.NewCipher] guarantees of the expanded key. *)
Definition validBlock (b : aes.Block) : Prop :=
  Forall word4 (aes.enc b)
  /\ (4 * aes.rounds b + 4 <= length (aes.enc b))%nat.

(** The AEAD values [cipher.NewGCM] makes from an AES block cipher. *)
Definition standardGCM (g : cipher.gcm) : Prop :=
  validBlock (cipher.cipher g)
  /\ cipher.nonceSize g = 12 /\ cipher.tagSize g = 16.

(** The AEAD a vault works with: [aes.NewCipher] on its key, then
    [cipher.NewGCM]. *)
Definition aead (block : aes.Block) : cipher.gcm :=
  {| cipher.cipher := block; cipher.nonceSize := 12; cipher.tagSize := 16 |}.

(** The pieces [cipher.Seal] appends for a 12-byte nonce. *)
Definition sealedText (g : cipher.gcm) (nonce plaintext : bytes) : bytes :=
  cipher.counterCrypt g plaintext
    (cipher.gcmInc32 (cipher.deriveCounter g nonce)).

Definition sealedTag (g : cipher.gcm) (nonce plaintext : bytes) : bytes :=
  cipher.auth g (sealedText g nonce plaintext) []
    (aes.Encrypt (cipher.cipher g) (cipher.deriveCounter g nonce)).

(** The bytes [crypto.Encrypt] encodes: nonce, ciphertext, tag. *)
Definition blobBytes (block : aes.Block) (nonce plaintext : bytes) : bytes :=
  (nonce ++ sealedText (aead block) nonce plaintext
         ++ sealedTag (aead block) nonce plaintext)%list.

(** ** The design's names for the failures of [crypto.Decrypt]

    The two failure kinds of the design, as sets of the error values the
    code returns: a malformed blob is a base64 decoding error or the
    too-short ciphertext error; a decryption failure is the single message
    that [Decrypt] substitutes for whatever [gcm.Open] reports. *)
Definition MalformedBlob (e : error) : Prop :=
  e = CorruptInputError \/ e = crypto.errTooShort.

Definition DecryptionFailed (e : error) : Prop :=
  e = crypto.errDecryptionFailed.

(** AES-GCM authentication of the decoded bytes under the vault's key:
    [gcm.Open] on the 12-byte nonce and the rest returns an error. *)
Definition authenticationFails (v : crypto.Vault) (data : bytes) : bool :=
  match aes.NewCipher (crypto.key v) with
  | Ok block =>
      match cipher.NewGCM block with
      | Ok gcm =>
          match cipher.Open gcm [] (firstn 12 data) (skipn 12 data) [] with
          | Returns (_, Some _) => true
          | _ => false
          end
      | Err _ => false
      end
  | Err _ => false
  end.

(** The call [argon2.IDKey(password, salt, argonTime, argonMem, argonParts,
    keyLen)] that the three derivation functions share. *)
Definition derive (IDKey : bytes -> bytes -> N -> N -> N -> N -> bytes)
           (password salt : bytes) : bytes :=
  IDKey password salt crypto.argonTime crypto.argonMem crypto.argonParts
        crypto.keyLen.

(** [data] with the byte at index [i] replaced by [b]. *)
Fixpoint setByte (i : nat) (b : byte) (data : bytes) : bytes :=
  match data, i with
  | [], _ => []
  | _ :: rest, O => b :: rest
  | x :: rest, S i' => x :: setByte i' b rest
  end.

(** ** Sample data for the worked instances *)

Definition hex (s : string) : bytes :=
  let digit c := let n := Byte.to_N c in if n <? 58 then n - 48 else n - 87 in
  let fix pairs (l : list N) : bytes :=
    match l with
    | a :: b :: r => byte_of_N (16 * a + b) :: pairs r
    | _ => []
    end in
  pairs (map digit (list_byte_of_string s)).

(** A stand-in for Argon2id in worked instances (the real function fills
    64 MiB of memory): the first [keyLen] bytes of password, salt and zero
    padding. *)
Definition paddedKey (password salt : bytes) (time memory threads keyLen : N) : bytes :=
  firstn (N.to_nat keyLen)
         (password ++ salt ++ repeat x00 (N.to_nat keyLen))%list.

Definition sampleVault : crypto.Vault :=
  {| crypto.key :=
       hex "000102030405060708090a0b0c0d0e0f101112131415161718191a1b1c1d1e1f" |}.

Definition sampleSecret : bytes := list_byte_of_string "db-secret-123".

Definition sampleEntropy : io.Reader := hex "cafebabefacedbaddecaf888".

Definition sampleSalt : bytes := repeat x00 16.

Definition sampleStore : store.Store :=
  {| store.app_config :=
       [(main.master_salt, base64.EncodeToString sampleSalt);
        (main.master_hash,
         crypto.HashPassword paddedKey (list_byte_of_string "correct horse")
                             sampleSalt)];
     store.failure := fun _ => None |}.

Definition lockedApp : main.App :=
  {| main.store := Some sampleStore; main.vault := None |}.

(** The store [SetMasterPassword] leaves behind when both writes succeed. *)
Definition storeWithMaster (IDKey : bytes -> bytes -> N -> N -> N -> N -> bytes)
           (s : store.Store) (password salt : bytes) : store.Store :=
  {| store.app_config :=
       store.upsertValue main.master_hash
         (crypto.HashPassword IDKey password salt)
         (store.upsertValue main.master_salt (base64.EncodeToString salt)
            (store.app_config s));
     store.failure := store.failure s |}.

Definition emptyStore : store.Store :=
  {| store.app_config := []; store.failure := fun _ => None |}.

Definition freshApp : main.App :=
  {| main.store := Some emptyStore; main.vault := None |}.

Definition saltEntropy : io.Reader :=
  hex "a0a1a2a3a4a5a6a7a8a9aaabacadaeaf0001".

(** A store on which every query for [master_hash] fails. *)
Definition hashQueryFails : store.Store :=
  {| store.app_config := store.app_config sampleStore;
     store.failure := fun k =>
       if list_eq_dec Byte.byte_eq_dec k main.master_hash
       then Some (sqlError "database is locked") else None |}.

(** The profile [ListConnections] builds from a stored one and the two
    secrets it shows. *)
Definition profileWith (c : store.ConnectionProfile) (pwd sshPwd : bytes)
  : main.ConnectionProfile :=
  {| main.ID := store.ID c; main.Name := store.Name c;
     main.Host := store.Host c; main.Port := store.Port c;
     main.Username := store.Username c; main.Password := pwd;
     main.DefaultDB := store.DefaultDB c; main.UseSSL := store.UseSSL c;
     main.SSHEnabled := store.SSHEnabled c; main.SSHHost := store.SSHHost c;
     main.SSHPort := store.SSHPort c; main.SSHUser := store.SSHUser c;
     main.SSHAuth := store.SSHAuth c; main.SSHKeyPath := store.SSHKeyPath c;
     main.SSHPass := sshPwd; main.SortOrder := store.SortOrder c |}.

(** A profile under the key it was saved with. *)
Definition withID (cp : main.ConnectionProfile) (key : bytes)
  : main.ConnectionProfile :=
  {| main.ID := key; main.Name := main.Name cp;
     main.Host := main.Host cp; main.Port := main.Port cp;
     main.Username := main.Username cp; main.Password := main.Password cp;
     main.DefaultDB := main.DefaultDB cp; main.UseSSL := main.UseSSL cp;
     main.SSHEnabled := main.SSHEnabled cp; main.SSHHost := main.SSHHost cp;
     main.SSHPort := main.SSHPort cp; main.SSHUser := main.SSHUser cp;
     main.SSHAuth := main.SSHAuth cp; main.SSHKeyPath := main.SSHKeyPath cp;
     main.SSHPass := main.SSHPass cp; main.SortOrder := main.SortOrder cp |}.

(** The key [SaveConnection] files a profile under: its own, or the fresh
    one when it has none. *)
Definition savedKey (cp : main.ConnectionProfile) (newID : bytes) : bytes :=
  if list_eq_dec Byte.byte_eq_dec (main.ID cp) [] then newID else main.ID cp.

(** What a listed profile shows for a stored secret: the stored string, or
    what it decrypts to under the vault. *)
Definition shows (v : option crypto.Vault) (stored shown : bytes) : Prop :=
  shown = stored
  \/ exists v0, v = Some v0 /\ crypto.Decrypt v0 stored = Returns (shown, None).

Definition sampleProfile : main.ConnectionProfile :=
  {| main.ID := []; main.Name := list_byte_of_string "staging";
     main.Host := list_byte_of_string "db.internal"; main.Port := 3306%Z;
     main.Username := list_byte_of_string "app";
     main.Password := list_byte_of_string "db-secret-123";
     main.DefaultDB := list_byte_of_string "shop"; main.UseSSL := true;
     main.SSHEnabled := true;
     main.SSHHost := list_byte_of_string "bastion"; main.SSHPort := 22%Z;
     main.SSHUser := list_byte_of_string "ops";
     main.SSHAuth := list_byte_of_string "password";
     main.SSHKeyPath := []; main.SSHPass := list_byte_of_string "tunnel-pw";
     main.SortOrder := 1%Z |}.

Definition sampleRow : store.connectionRow :=
  {| store.id := list_byte_of_string "c-1";
     store.name := list_byte_of_string "legacy";
     store.host := list_byte_of_string "old.internal"; store.port := 3306%Z;
     store.username := list_byte_of_string "root";
     store.password := list_byte_of_string "plain-old-password";
     store.default_db := []; store.use_ssl := 0%Z; store.ssh_enabled := 0%Z;
     store.ssh_host := []; store.ssh_port := 22%Z; store.ssh_user := [];
     store.ssh_auth := list_byte_of_string "key"; store.ssh_key_path := [];
     store.ssh_password := []; store.sort_order := 0%Z;
     store.created_at := list_byte_of_string "2024-01-01T00:00:00Z";
     store.updated_at := list_byte_of_string "2024-01-01T00:00:00Z" |}.

Definition sampleTable : store.Connections :=
  {| store.connections := [sampleRow]; store.connectionsFailure := None |}.

Definition unlockedApp : main.App :=
  {| main.store := Some sampleStore; main.vault := Some sampleVault |}.

Definition sampleNow : bytes := list_byte_of_string "2026-11-02T10:00:00Z".

Definition sampleUUID : bytes :=
  list_byte_of_string "7d444840-9dc0-11d1-b245-5ffdce74fad2".

Definition twoNonces : io.Reader :=
  hex "cafebabefacedbaddecaf888000102030405060708090a0b".

(** * Properties *)

(** ** Bytes and bit arithmetic *)

Lemma to_N_lt (b : byte) : Byte.to_N b < 256.
Proof. pose proof (Byte.to_N_bounded b). lia. Qed.

Lemma to_N_byte_of_N (n : N) : Byte.to_N (byte_of_N n) = n mod 256.
Proof.
  unfold byte_of_N.
  destruct (Byte.of_N (n mod 256)) as [b|] eqn:E.
  - now apply Byte.to_of_N.
  - apply Byte.of_N_None_iff in E.
    pose proof (N.mod_upper_bound n 256). lia.
Qed.

Lemma byte_of_N_to_N (b : byte) : byte_of_N (Byte.to_N b) = b.
Proof.
  unfold byte_of_N. rewrite N.mod_small by apply to_N_lt.
  now rewrite Byte.of_to_N.
Qed.

Lemma to_N_inj (a b : byte) : Byte.to_N a = Byte.to_N b -> a = b.
Proof.
  intros H. rewrite <- (byte_of_N_to_N a), <- (byte_of_N_to_N b). now rewrite H.
Qed.

Lemma byte_of_N_mod (n : N) (b : byte) :
  n mod 256 = Byte.to_N b -> byte_of_N n = b.
Proof. intros H. apply to_N_inj. now rewrite to_N_byte_of_N. Qed.

Lemma testbit_above (y k n : N) : y < 2 ^ k -> k <= n -> N.testbit y n = false.
Proof.
  intros Hy Hk. rewrite <- (N.mod_small y (2 ^ k)) by assumption.
  now apply N.mod_pow2_bits_high.
Qed.

Lemma land_shifted (x y k : N) : y < 2 ^ k -> N.land (x * 2 ^ k) y = 0.
Proof.
  intros Hy. apply N.bits_inj. intros n.
  rewrite N.land_spec, N.bits_0.
  destruct (N.lt_ge_cases n k) as [Hn|Hn].
  - now rewrite N.mul_pow2_bits_low.
  - rewrite (testbit_above y k n) by assumption. apply andb_false_r.
Qed.

Lemma lor_add (x y k : N) : y < 2 ^ k -> N.lor (x * 2 ^ k) y = x * 2 ^ k + y.
Proof.
  intros Hy. pose proof (land_shifted x y k Hy) as H0.
  rewrite <- N.lxor_lor by assumption.
  symmetry. now apply N.add_nocarry_lxor.
Qed.

Lemma lxor_lt_pow2 (a b k : N) : a < 2 ^ k -> b < 2 ^ k -> N.lxor a b < 2 ^ k.
Proof.
  intros Ha Hb.
  assert (E : N.lxor a b = N.lxor a b mod 2 ^ k).
  { apply N.bits_inj. intros n.
    destruct (N.lt_ge_cases n k) as [Hn|Hn].
    - now rewrite N.mod_pow2_bits_low.
    - rewrite N.mod_pow2_bits_high by assumption.
      rewrite N.lxor_spec, (testbit_above a k n), (testbit_above b k n);
        auto. }
  rewrite E. apply N.mod_upper_bound. apply N.pow_nonzero. discriminate.
Qed.

Lemma to_N_xor_byte (a b : byte) :
  Byte.to_N (xor_byte a b) = N.lxor (Byte.to_N a) (Byte.to_N b).
Proof.
  unfold xor_byte. rewrite to_N_byte_of_N. apply N.mod_small.
  apply (lxor_lt_pow2 _ _ 8); apply to_N_lt.
Qed.

Lemma xor_byte_cancel (a b : byte) : xor_byte (xor_byte a b) b = a.
Proof.
  apply to_N_inj. rewrite !to_N_xor_byte.
  now rewrite N.lxor_assoc, N.lxor_nilpotent, N.lxor_0_r.
Qed.

Lemma xor_bytes_length (a b : bytes) :
  length (xor_bytes a b) = Nat.min (length a) (length b).
Proof.
  revert b. induction a as [|x a IH]; intros [|y b]; simpl; auto.
Qed.

Lemma xor_bytes_nil_l (b : bytes) : xor_bytes [] b = [].
Proof. reflexivity. Qed.

Lemma xor_bytes_cancel (a b : bytes) :
  (length a <= length b)%nat -> xor_bytes (xor_bytes a b) b = a.
Proof.
  revert b. induction a as [|x a IH]; intros [|y b] H; simpl in *; auto.
  - lia.
  - rewrite xor_byte_cancel, IH; auto. lia.
Qed.

Lemma firstn_app_exact {A} (n : nat) (l1 l2 : list A) :
  length l1 = n -> firstn n (l1 ++ l2) = l1.
Proof.
  intros <-. rewrite firstn_app, firstn_all, Nat.sub_diag. simpl.
  apply app_nil_r.
Qed.

Lemma skipn_app_exact {A} (n : nat) (l1 l2 : list A) :
  length l1 = n -> skipn n (l1 ++ l2) = l2.
Proof.
  intros <-. rewrite skipn_app, skipn_all, Nat.sub_diag. reflexivity.
Qed.

Lemma len_nil_iff {A} (l : list A) : (len l =? 0) = true <-> l = [].
Proof.
  unfold len. rewrite N.eqb_eq. destruct l; simpl; split; auto; try lia.
  discriminate.
Qed.

(** ** base64: decoding inverts encoding *)

Module base64_facts.
Import base64.

Lemma decodeMap_encode (s : N) : s < 64 -> decodeMap (encode s) = s.
Proof.
  intros Hs.
  assert (H : forallb (fun i => decodeMap (encode (N.of_nat i)) =? N.of_nat i)
                      (seq 0 64) = true) by (vm_compute; reflexivity).
  rewrite forallb_forall in H.
  specialize (H (N.to_nat s)). rewrite N2Nat.id in H.
  apply N.eqb_eq, H, in_seq. lia.
Qed.

Lemma decode_digit (s : N) (rest : bytes) (dbuf : list N) :
  s < 64 ->
  decode (encode s :: rest) dbuf =
  if Nat.eqb (length (dbuf ++ [s])) 4
  then prepend (quantum (dbuf ++ [s]) 4) (decode rest [])
  else decode rest (dbuf ++ [s]).
Proof.
  intros Hs. cbn [decode]. rewrite (decodeMap_encode s Hs).
  destruct (s =? 255) eqn:E; [apply N.eqb_eq in E; lia | reflexivity].
Qed.

Lemma decode_four (s0 s1 s2 s3 : N) (rest : bytes) :
  s0 < 64 -> s1 < 64 -> s2 < 64 -> s3 < 64 ->
  decode (encode s0 :: encode s1 :: encode s2 :: encode s3 :: rest) [] =
  prepend (quantum [s0; s1; s2; s3] 4) (decode rest []).
Proof.
  intros H0 H1 H2 H3. now rewrite !decode_digit by assumption.
Qed.

Lemma decode_three (s0 s1 s2 : N) :
  s0 < 64 -> s1 < 64 -> s2 < 64 ->
  decode [encode s0; encode s1; encode s2; padChar] [] =
  (quantum [s0; s1; s2] 3, None).
Proof.
  intros H0 H1 H2. now rewrite !decode_digit by assumption.
Qed.

Lemma decode_two (s0 s1 : N) :
  s0 < 64 -> s1 < 64 ->
  decode [encode s0; encode s1; padChar; padChar] [] =
  (quantum [s0; s1] 2, None).
Proof.
  intros H0 H1. now rewrite !decode_digit by assumption.
Qed.

Lemma pack4 (s0 s1 s2 s3 : N) :
  s0 < 64 -> s1 < 64 -> s2 < 64 -> s3 < 64 ->
  N.lor (N.lor (N.lor (N.shiftl s0 18) (N.shiftl s1 12)) (N.shiftl s2 6)) s3
  = s0 * 262144 + s1 * 4096 + s2 * 64 + s3.
Proof.
  intros H0 H1 H2 H3. rewrite !N.shiftl_mul_pow2.
  rewrite (lor_add s0 (s1 * 2 ^ 12) 18)
    by (change (2 ^ 18) with 262144; change (2 ^ 12) with 4096; lia).
  replace (s0 * 2 ^ 18 + s1 * 2 ^ 12) with ((s0 * 64 + s1) * 2 ^ 12)
    by (change (2 ^ 18) with 262144; change (2 ^ 12) with 4096; lia).
  rewrite (lor_add _ (s2 * 2 ^ 6) 12)
    by (change (2 ^ 6) with 64; change (2 ^ 12) with 4096; lia).
  replace ((s0 * 64 + s1) * 2 ^ 12 + s2 * 2 ^ 6)
    with (((s0 * 64 + s1) * 64 + s2) * 2 ^ 6)
    by (change (2 ^ 6) with 64; change (2 ^ 12) with 4096; lia).
  rewrite (lor_add _ s3 6) by (change (2 ^ 6) with 64; lia).
  change (2 ^ 6) with 64. lia.
Qed.

Lemma pack3 (a b c : N) :
  a < 256 -> b < 256 -> c < 256 ->
  N.lor (N.lor (N.shiftl a 16) (N.shiftl b 8)) c = a * 65536 + b * 256 + c.
Proof.
  intros Ha Hb Hc. rewrite !N.shiftl_mul_pow2.
  rewrite (lor_add a (b * 2 ^ 8) 16)
    by (change (2 ^ 16) with 65536; change (2 ^ 8) with 256; lia).
  replace (a * 2 ^ 16 + b * 2 ^ 8) with ((a * 256 + b) * 2 ^ 8)
    by (change (2 ^ 16) with 65536; change (2 ^ 8) with 256; lia).
  rewrite (lor_add _ c 8) by (change (2 ^ 8) with 256; lia).
  change (2 ^ 8) with 256. lia.
Qed.

Lemma digit_lt (v k : N) : N.land (N.shiftr v k) 63 < 64.
Proof.
  change 63 with (N.ones 6). rewrite N.land_ones.
  apply N.mod_upper_bound. discriminate.
Qed.

Lemma digit0_lt (v : N) : N.land v 63 < 64.
Proof.
  change 63 with (N.ones 6). rewrite N.land_ones.
  apply N.mod_upper_bound. discriminate.
Qed.

Ltac digits :=
  change 63 with (N.ones 6);
  rewrite ?N.shiftl_mul_pow2, ?N.shiftr_div_pow2, ?N.land_ones;
  change (2 ^ 18) with 262144; change (2 ^ 16) with 65536;
  change (2 ^ 12) with 4096; change (2 ^ 8) with 256;
  change (2 ^ 6) with 64.

(** A number below 2^24 is the sum of its four base-64 digits. *)
Lemma digits64 (v : N) :
  v < 16777216 ->
  (v / 262144) mod 64 * 262144 + (v / 4096) mod 64 * 4096
  + (v / 64) mod 64 * 64 + v mod 64 = v.
Proof.
  intros Hlt.
  change 262144 with (64 * (64 * 64)) at 1.
  change 4096 with (64 * 64) at 1.
  rewrite <- !N.Div0.div_div.
  pose proof (N.Div0.div_mod v 64) as E1.
  pose proof (N.Div0.div_mod (v / 64) 64) as E2.
  pose proof (N.Div0.div_mod (v / 64 / 64) 64) as E3.
  pose proof (N.Div0.div_mod (v / 64 / 64 / 64) 64) as E4.
  assert (B1 : v mod 64 < 64) by (apply N.mod_upper_bound; discriminate).
  assert (B2 : (v / 64) mod 64 < 64) by (apply N.mod_upper_bound; discriminate).
  assert (B3 : (v / 64 / 64) mod 64 < 64)
    by (apply N.mod_upper_bound; discriminate).
  assert (B4 : (v / 64 / 64 / 64) mod 64 < 64)
    by (apply N.mod_upper_bound; discriminate).
  generalize dependent (v / 64 / 64 / 64 / 64). intros q4.
  generalize dependent ((v / 64 / 64 / 64) mod 64). intros r4.
  generalize dependent (v / 64 / 64 / 64). intros q3.
  generalize dependent ((v / 64 / 64) mod 64). intros r3.
  generalize dependent (v / 64 / 64). intros q2.
  generalize dependent ((v / 64) mod 64). intros r2.
  generalize dependent (v / 64). intros q1.
  generalize dependent (v mod 64). intros r1.
  intros. lia.
Qed.

(** The three bytes of a 24-bit value. *)
Lemma bytes_of_val (a b c : N) :
  a < 256 -> b < 256 -> c < 256 ->
  let v := a * 65536 + b * 256 + c in
  (v / 65536) mod 256 = a /\ (v / 256) mod 256 = b /\ v mod 256 = c.
Proof.
  intros Ha Hb Hc v.
  assert (E1 : v / 65536 = a)
    by (symmetry; apply (N.div_unique v 65536 a (b * 256 + c)); subst v; lia).
  assert (E2 : v / 256 = a * 256 + b)
    by (symmetry; apply (N.div_unique v 256 (a * 256 + b) c); subst v; lia).
  rewrite E1, E2. repeat split.
  - now apply N.mod_small.
  - symmetry. apply (N.mod_unique _ 256 a b); lia.
  - symmetry. apply (N.mod_unique _ 256 (a * 256 + b) c); subst v; lia.
Qed.

Lemma quantum_full (a b c : byte) :
  let val := N.lor (N.lor (N.shiftl (Byte.to_N a) 16)
                          (N.shiftl (Byte.to_N b) 8)) (Byte.to_N c) in
  quantum [N.land (N.shiftr val 18) 63; N.land (N.shiftr val 12) 63;
           N.land (N.shiftr val 6) 63; N.land val 63] 4 = [a; b; c].
Proof.
  intros val. unfold quantum. cbn [nth Nat.sub firstn].
  rewrite pack4 by (apply digit_lt || apply digit0_lt).
  pose proof (to_N_lt a) as Ha. pose proof (to_N_lt b) as Hb.
  pose proof (to_N_lt c) as Hc.
  assert (Hv : val = Byte.to_N a * 65536 + Byte.to_N b * 256 + Byte.to_N c)
    by (apply pack3; assumption).
  digits. rewrite digits64 by lia. rewrite Hv.
  destruct (bytes_of_val _ _ _ Ha Hb Hc) as (E1 & E2 & E3).
  f_equal; [|f_equal; [|f_equal]]; now apply byte_of_N_mod.
Qed.

(** Two source bytes: three digits and one padding character. *)
Lemma quantum_two (a b : byte) :
  let val := N.lor (N.shiftl (Byte.to_N a) 16) (N.shiftl (Byte.to_N b) 8) in
  quantum [N.land (N.shiftr val 18) 63; N.land (N.shiftr val 12) 63;
           N.land (N.shiftr val 6) 63] 3 = [a; b].
Proof.
  intros val. unfold quantum. cbn [nth Nat.sub firstn].
  pose proof (to_N_lt a) as Ha. pose proof (to_N_lt b) as Hb.
  assert (Hv : val = Byte.to_N a * 65536 + Byte.to_N b * 256 + 0).
  { rewrite <- (pack3 _ _ 0) by (assumption || reflexivity).
    now rewrite N.lor_0_r. }
  rewrite pack4 by (apply digit_lt || reflexivity).
  assert (H0 : val mod 64 = 0).
  { rewrite Hv. symmetry.
    apply (N.mod_unique _ 64 (Byte.to_N a * 1024 + Byte.to_N b * 4) 0); lia. }
  pose proof (digits64 val ltac:(lia)) as Hd. rewrite H0 in Hd.
  digits. rewrite Hd, Hv.
  destruct (bytes_of_val _ _ 0 Ha Hb ltac:(reflexivity)) as (E1 & E2 & _).
  f_equal; [|f_equal]; now apply byte_of_N_mod.
Qed.

(** One source byte: two digits and two padding characters. *)
Lemma quantum_one (a : byte) :
  let val := N.shiftl (Byte.to_N a) 16 in
  quantum [N.land (N.shiftr val 18) 63; N.land (N.shiftr val 12) 63] 2 = [a].
Proof.
  intros val. unfold quantum. cbn [nth Nat.sub firstn].
  pose proof (to_N_lt a) as Ha.
  assert (Hv : val = Byte.to_N a * 65536 + 0 * 256 + 0).
  { rewrite <- (pack3 _ 0 0) by (assumption || reflexivity).
    now rewrite N.shiftl_0_l, !N.lor_0_r. }
  rewrite pack4 by (apply digit_lt || reflexivity).
  assert (H0 : val mod 64 = 0).
  { rewrite Hv. symmetry.
    apply (N.mod_unique _ 64 (Byte.to_N a * 1024) 0); lia. }
  assert (H1 : (val / 64) mod 64 = 0).
  { assert (E : val / 64 = Byte.to_N a * 1024)
      by (symmetry; apply (N.div_unique _ 64 _ 0); lia).
    rewrite E. symmetry.
    apply (N.mod_unique _ 64 (Byte.to_N a * 16) 0); lia. }
  pose proof (digits64 val ltac:(lia)) as Hd. rewrite H0, H1 in Hd.
  digits. rewrite Hd, Hv.
  destruct (bytes_of_val _ 0 0 Ha ltac:(reflexivity) ltac:(reflexivity))
    as (E1 & _ & _).
  f_equal. now apply byte_of_N_mod.
Qed.

Lemma encode_nil_iff (src : bytes) : EncodeToString src = [] <-> src = [].
Proof.
  split; [|now intros ->].
  destruct src as [|a [|b [|c rest]]]; cbn [EncodeToString]; auto;
    discriminate.
Qed.

Lemma decode_encode_aux (n : nat) :
  forall src, (length src <= n)%nat ->
              decode (EncodeToString src) [] = (src, None).
Proof.
  induction n as [|n IH]; intros src Hn.
  - destruct src; [reflexivity | simpl in Hn; lia].
  - destruct src as [|a [|b [|c rest]]].
    + reflexivity.
    + cbn [EncodeToString].
      rewrite decode_two by apply digit_lt. now rewrite quantum_one.
    + cbn [EncodeToString].
      rewrite decode_three by apply digit_lt. now rewrite quantum_two.
    + cbn [EncodeToString].
      rewrite decode_four by (apply digit_lt || apply digit0_lt).
      rewrite quantum_full, IH by (simpl in Hn; lia). reflexivity.
Qed.

(** Decoding the encoding of [src] returns [src] and no error. *)
Lemma DecodeString_EncodeToString (src : bytes) :
  DecodeString (EncodeToString src) = (src, None).
Proof. apply (decode_encode_aux (length src)). lia. Qed.


End base64_facts.

(** ** subtle: the comparison decides equality *)

Module subtle_facts.
Import subtle.

Lemma lor_lt_pow2 (a b k : N) : a < 2 ^ k -> b < 2 ^ k -> N.lor a b < 2 ^ k.
Proof.
  intros Ha Hb.
  assert (E : N.lor a b = N.lor a b mod 2 ^ k).
  { apply N.bits_inj. intros n.
    destruct (N.lt_ge_cases n k) as [Hn|Hn].
    - now rewrite N.mod_pow2_bits_low.
    - rewrite N.mod_pow2_bits_high by assumption.
      rewrite N.lor_spec, (testbit_above a k n), (testbit_above b k n);
        auto. }
  rewrite E. apply N.mod_upper_bound. apply N.pow_nonzero. discriminate.
Qed.

Lemma accumulate_lt (x : bytes) :
  forall y v, v < 256 -> accumulate x y v < 256.
Proof.
  induction x as [|a x IH]; intros [|b y] v Hv; simpl; auto.
  apply IH. apply (lor_lt_pow2 _ _ 8); auto.
  apply (lxor_lt_pow2 _ _ 8); apply to_N_lt.
Qed.

Lemma ConstantTimeByteEq_zero (v : N) :
  v < 256 -> ConstantTimeByteEq v 0 = if v =? 0 then 1 else 0.
Proof.
  intros Hv. unfold ConstantTimeByteEq. rewrite N.lxor_0_r.
  destruct (v =? 0) eqn:E.
  - apply N.eqb_eq in E. now subst.
  - apply N.eqb_neq in E. rewrite N.shiftr_div_pow2.
    change (2 ^ 32) with 4294967296. change (2 ^ 31) with 2147483648.
    assert (Hm : (v + (4294967296 - 1)) mod 4294967296 = v - 1).
    { symmetry. apply (N.mod_unique _ 4294967296 1); lia. }
    rewrite Hm. apply N.div_small. lia.
Qed.

Lemma accumulate_zero (x : bytes) :
  forall y v, length x = length y ->
              (accumulate x y v = 0 <-> v = 0 /\ x = y).
Proof.
  induction x as [|a x IH]; intros [|b y] v Hlen; simpl in *;
    try discriminate.
  - split; [auto | now intros []].
  - rewrite IH by congruence. rewrite N.lor_eq_0_iff, N.lxor_eq_0_iff.
    split.
    + intros [[Hv Hab] Hxy]. apply to_N_inj in Hab. now subst.
    + intros [Hv Heq]. now inversion Heq.
Qed.

Lemma ConstantTimeCompare_spec (x y : bytes) :
  ConstantTimeCompare x y = 1 <-> x = y.
Proof.
  unfold ConstantTimeCompare, len.
  destruct (N.of_nat (length x) =? N.of_nat (length y)) eqn:E; simpl.
  - apply N.eqb_eq, Nat2N.inj in E.
    rewrite ConstantTimeByteEq_zero by (apply accumulate_lt; reflexivity).
    destruct (accumulate x y 0 =? 0) eqn:Ea.
    + apply N.eqb_eq, accumulate_zero in Ea; auto. tauto.
    + apply N.eqb_neq in Ea. split; [discriminate|].
      intros ->. exfalso. apply Ea. now apply accumulate_zero.
  - apply N.eqb_neq in E. split; [discriminate|]. now intros ->.
Qed.

Lemma ConstantTimeCompare_range (x y : bytes) :
  ConstantTimeCompare x y = 0 \/ ConstantTimeCompare x y = 1.
Proof.
  unfold ConstantTimeCompare.
  destruct (negb _); auto.
  rewrite ConstantTimeByteEq_zero by (apply accumulate_lt; reflexivity).
  destruct (_ =? 0); auto.
Qed.

Lemma ConstantTimeCompare_refl (x : bytes) : ConstantTimeCompare x x = 1.
Proof. now apply ConstantTimeCompare_spec. Qed.

Lemma ConstantTimeCompare_neq (x y : bytes) :
  x <> y -> ConstantTimeCompare x y = 0.
Proof.
  intros H. destruct (ConstantTimeCompare_range x y) as [E|E]; auto.
  now apply ConstantTimeCompare_spec in E.
Qed.

End subtle_facts.

(** ** aes: blocks made by [NewCipher] encrypt to sixteen bytes *)

Module aes_facts.
Import aes.

Lemma xor_list_length (a b : list N) :
  length (xor_list a b) = Nat.min (length a) (length b).
Proof.
  revert b. induction a as [|x a IH]; intros [|y b]; simpl; auto.
Qed.

Lemma RotWord_length (w : list N) : length (RotWord w) = length w.
Proof. destruct w; simpl; auto. rewrite length_app. simpl. lia. Qed.

Lemma words_word4 (key : list N) : Forall word4 (words key).
Proof.
  assert (H : forall n key, (length key <= n)%nat -> Forall word4 (words key)).
  { clear key. induction n as [|n IH]; intros key Hn.
    - destruct key; [constructor | simpl in Hn; lia].
    - destruct key as [|a [|b [|c [|d rest]]]]; try constructor.
      + reflexivity.
      + apply IH. simpl in Hn. lia. }
  apply (H (length key)). lia.
Qed.

Lemma nth_word4 (w : list (list N)) (i : nat) :
  Forall word4 w -> (i < length w)%nat -> word4 (nth i w []).
Proof.
  intros Hw Hi. rewrite Forall_forall in Hw. apply Hw, nth_In, Hi.
Qed.

Lemma expand_spec (n : nat) :
  forall i Nk w,
    length w = i -> (0 < Nk <= i)%nat -> Forall word4 w ->
    Forall word4 (expand n i Nk w) /\ length (expand n i Nk w) = (i + n)%nat.
Proof.
  induction n as [|n IH]; intros i Nk w Hlen HNk Hw; cbn [expand].
  - split; [assumption | lia].
  - destruct (IH (S i) Nk
                 (w ++ [xor_list (nth (i - Nk) w [])
                          (if Nat.eqb (Nat.modulo i Nk) 0
                           then xor_list (SubWord (RotWord (nth (i - 1) w [])))
                                         (Rcon (Nat.div i Nk))
                           else if Nat.ltb 6 Nk && Nat.eqb (Nat.modulo i Nk) 4
                                then SubWord (nth (i - 1) w [])
                                else nth (i - 1) w [])])%list) as [H1 H2].
    + rewrite length_app. simpl. lia.
    + lia.
    + apply Forall_app. split; [assumption|]. constructor; [|constructor].
      assert (Ht : word4 (nth (i - 1) w [])) by (apply nth_word4; auto; lia).
      assert (Hk : word4 (nth (i - Nk) w [])) by (apply nth_word4; auto; lia).
      unfold word4 in *. rewrite xor_list_length, Hk.
      destruct (Nat.eqb (Nat.modulo i Nk) 0).
      * rewrite xor_list_length. unfold SubWord.
        rewrite length_map, RotWord_length, Ht. reflexivity.
      * destruct (Nat.ltb 6 Nk && Nat.eqb (Nat.modulo i Nk) 4).
        -- unfold SubWord. rewrite length_map, Ht. reflexivity.
        -- rewrite Ht. reflexivity.
    + split; [assumption | lia].
Qed.

Lemma words_length (key : list N) (k : nat) :
  length key = (4 * k)%nat -> length (words key) = k.
Proof.
  revert key. induction k as [|k IH]; intros key Hk.
  - destruct key; [reflexivity | simpl in Hk; lia].
  - destruct key as [|a [|b [|c [|d rest]]]]; simpl in Hk; try lia.
    cbn [words length]. f_equal. apply IH. lia.
Qed.

Lemma expandKey_spec (key : list N) (k : nat) :
  length key = (4 * k)%nat -> (0 < k)%nat ->
  Forall word4 (expandKey key) /\
  length (expandKey key) = (4 * (k + 7))%nat.
Proof.
  intros Hk Hpos. unfold expandKey. rewrite (words_length key k Hk).
  destruct (expand_spec (4 * (k + 7) - k) k k (words key)) as [H1 H2].
  - now apply words_length.
  - lia.
  - apply words_word4.
  - split; [assumption | lia].
Qed.

Lemma NewCipher_Ok_iff (key : bytes) :
  (exists b, NewCipher key = Ok b) <->
  (length key = 16 \/ length key = 24 \/ length key = 32)%nat.
Proof.
  unfold NewCipher, len.
  destruct ((N.of_nat (length key) =? 16) || (N.of_nat (length key) =? 24)
            || (N.of_nat (length key) =? 32)) eqn:E.
  - split; [intros _ | eauto].
    rewrite !orb_true_iff, !N.eqb_eq in E. lia.
  - split; [intros [b Hb]; discriminate|].
    rewrite !orb_false_iff, !N.eqb_neq in E. lia.
Qed.

Lemma NewCipher_valid (key : bytes) (b : Block) :
  NewCipher key = Ok b -> validBlock b.
Proof.
  intros Hb.
  assert (Hlen : (length key = 16 \/ length key = 24 \/ length key = 32)%nat)
    by (apply NewCipher_Ok_iff; eauto).
  unfold NewCipher in Hb. destruct (_ || _) in Hb; [|discriminate].
  injection Hb as <-. unfold validBlock, rounds. cbn [enc].
  assert (Hk : exists k, length (map Byte.to_N key) = (4 * k)%nat
                         /\ (0 < k)%nat).
  { rewrite length_map.
    destruct Hlen as [H|[H|H]]; [exists 4%nat|exists 6%nat|exists 8%nat]; lia. }
  destruct Hk as (k & Hk & Hpos).
  destruct (expandKey_spec _ k Hk Hpos) as [H1 H2].
  split; [assumption|]. rewrite H2.
  replace (4 * (k + 7))%nat with ((k + 7) * 4)%nat by lia.
  rewrite Nat.div_mul by discriminate. lia.
Qed.

Lemma concat_word4 (l : list (list N)) :
  Forall word4 l -> length (concat l) = (4 * length l)%nat.
Proof.
  induction 1 as [|w l Hw Hl IH]; [reflexivity|].
  cbn [concat length]. rewrite length_app, IH, Hw. lia.
Qed.

Lemma Forall_slice {A} (P : A -> Prop) (l : list A) (m n : nat) :
  Forall P l -> Forall P (firstn n (skipn m l)).
Proof.
  intros H. rewrite <- (firstn_skipn m l) in H.
  apply Forall_app in H as [_ H].
  rewrite <- (firstn_skipn n (skipn m l)) in H.
  now apply Forall_app in H as [H _].
Qed.

Lemma roundKey_length (b : Block) (r : nat) :
  Forall word4 (enc b) -> (4 * r + 4 <= length (enc b))%nat ->
  length (roundKey b r) = 16%nat.
Proof.
  intros Hw Hr. unfold roundKey. rewrite concat_word4.
  - rewrite length_firstn, length_skipn. lia.
  - now apply Forall_slice.
Qed.

Lemma Encrypt_length (b : Block) (src : bytes) :
  validBlock b -> length (Encrypt b src) = 16%nat.
Proof.
  intros [Hw Hr]. unfold Encrypt, AddRoundKey.
  rewrite length_map, xor_list_length, roundKey_length by assumption.
  unfold ShiftRows. rewrite length_map. reflexivity.
Qed.

(** FIPS 197, appendix C.3: AES-256 on the example block. *)
Example Encrypt_fips197_C3 :
  match NewCipher
          (hex "000102030405060708090a0b0c0d0e0f101112131415161718191a1b1c1d1e1f")
  with
  | Ok b => Encrypt b (hex "00112233445566778899aabbccddeeff")
  | Err _ => []
  end = hex "8ea2b7ca516745bfeafc49904b496089".
Proof. vm_compute. reflexivity. Qed.

End aes_facts.

(** ** cipher: [Open] inverts [Seal] *)

Module cipher_facts.
Import cipher.

Lemma NewGCM_Ok (b : aes.Block) :
  NewGCM b = Ok {| cipher := b; nonceSize := 12; tagSize := 16 |}.
Proof. reflexivity. Qed.

Lemma NewGCM_standard (b : aes.Block) (g : gcm) :
  validBlock b -> NewGCM b = Ok g -> standardGCM g.
Proof.
  intros Hb Hg. rewrite NewGCM_Ok in Hg. injection Hg as <-.
  repeat split; auto; apply Hb.
Qed.

Lemma maxPlaintext_value (g : gcm) : maxPlaintext g = 68719476704.
Proof. reflexivity. Qed.

Lemma N_to_be_length (n : nat) : forall v, length (N_to_be n v) = n.
Proof.
  induction n as [|n IH]; intros v; simpl; auto.
  rewrite length_app, IH. simpl. lia.
Qed.

Lemma blockCount_bound (input : bytes) :
  (length input <= 16 * blockCount input)%nat.
Proof.
  unfold blockCount.
  pose proof (Nat.div_mod_eq (length input + 15) 16) as E.
  pose proof (Nat.mod_upper_bound (length input + 15) 16) as B.
  lia.
Qed.

Lemma blockCount_length (a b : bytes) :
  length a = length b -> blockCount a = blockCount b.
Proof. unfold blockCount. now intros ->. Qed.

Section CTR.

Variable b : aes.Block.
Hypothesis Hb : validBlock b.

Lemma cryptBlocks_nil (n : nat) : forall c, cryptBlocks n b [] c = [].
Proof. induction n as [|n IH]; intros c; simpl; auto. Qed.

Lemma cryptBlocks_length (n : nat) :
  forall input c, (length input <= 16 * n)%nat ->
                  length (cryptBlocks n b input c) = length input.
Proof.
  induction n as [|n IH]; intros input c Hn; cbn [cryptBlocks].
  - destruct input; [reflexivity | simpl in Hn; lia].
  - rewrite length_app, xor_bytes_length, length_firstn,
      (aes_facts.Encrypt_length b c Hb), IH.
    + rewrite length_skipn. lia.
    + rewrite length_skipn. lia.
Qed.

Lemma cryptBlocks_involutive (n : nat) :
  forall input c, (length input <= 16 * n)%nat ->
                  cryptBlocks n b (cryptBlocks n b input c) c = input.
Proof.
  induction n as [|n IH]; intros input c Hn; cbn [cryptBlocks].
  - destruct input; [reflexivity | simpl in Hn; lia].
  - set (X := xor_bytes (firstn 16 input) (aes.Encrypt b c)).
    set (Y := cryptBlocks n b (skipn 16 input) (gcmInc32 c)).
    assert (HX : length X = Nat.min 16 (length input)).
    { subst X. rewrite xor_bytes_length, length_firstn,
        (aes_facts.Encrypt_length b c Hb). lia. }
    assert (HXc : xor_bytes X (aes.Encrypt b c) = firstn 16 input).
    { subst X. apply xor_bytes_cancel.
      rewrite length_firstn, (aes_facts.Encrypt_length b c Hb). lia. }
    destruct (Nat.le_gt_cases 16 (length input)) as [Hl|Hl].
    + assert (HX16 : length X = 16%nat) by lia.
      rewrite (firstn_app_exact 16 X Y HX16), (skipn_app_exact 16 X Y HX16).
      rewrite HXc. subst Y. rewrite IH by (rewrite length_skipn; lia).
      apply firstn_skipn.
    + assert (HY : Y = []).
      { subst Y. rewrite skipn_all2 by lia. apply cryptBlocks_nil. }
      rewrite HY, app_nil_r.
      rewrite (firstn_all2 X) by lia. rewrite (skipn_all2 X) by lia.
      rewrite HXc, cryptBlocks_nil, app_nil_r.
      apply firstn_all2. lia.
Qed.

End CTR.

Lemma counterCrypt_length (g : gcm) (input c : bytes) :
  validBlock (cipher g) ->
  length (counterCrypt g input c) = length input.
Proof.
  intros Hb. unfold counterCrypt. apply cryptBlocks_length; auto.
  apply blockCount_bound.
Qed.

Lemma counterCrypt_involutive (g : gcm) (input c : bytes) :
  validBlock (cipher g) ->
  counterCrypt g (counterCrypt g input c) c = input.
Proof.
  intros Hb. unfold counterCrypt at 1.
  rewrite (blockCount_length _ input) by now apply counterCrypt_length.
  unfold counterCrypt. apply cryptBlocks_involutive; auto.
  apply blockCount_bound.
Qed.

Lemma auth_length (g : gcm) (ct ad mask : bytes) :
  length mask = 16%nat -> length (auth g ct ad mask) = 16%nat.
Proof.
  intros Hm. unfold auth. rewrite xor_bytes_length, N_to_be_length, Hm.
  reflexivity.
Qed.

Lemma sealedText_length (g : gcm) (nonce plaintext : bytes) :
  standardGCM g -> length (sealedText g nonce plaintext) = length plaintext.
Proof. intros [Hb _]. unfold sealedText. now apply counterCrypt_length. Qed.

Lemma sealedTag_length (g : gcm) (nonce plaintext : bytes) :
  standardGCM g -> length (sealedTag g nonce plaintext) = 16%nat.
Proof.
  intros [Hb _]. unfold sealedTag. apply auth_length.
  now apply aes_facts.Encrypt_length.
Qed.

Lemma Seal_returns (g : gcm) (dst nonce plaintext : bytes) :
  standardGCM g -> length nonce = 12%nat -> len plaintext <= 68719476704 ->
  Seal g dst nonce plaintext [] =
  Returns (dst ++ sealedText g nonce plaintext ++ sealedTag g nonce plaintext)%list.
Proof.
  intros (Hb & Hn & Ht) Hlen Hmax. unfold Seal.
  unfold len at 1. rewrite Hlen, Hn. cbn [N.of_nat N.eqb negb Pos.of_succ_nat
    Pos.succ Pos.eqb].
  rewrite maxPlaintext_value.
  destruct (68719476704 <? len plaintext) eqn:E;
    [apply N.ltb_lt in E; lia | reflexivity].
Qed.

Lemma Seal_panics_large (g : gcm) (dst nonce plaintext : bytes) :
  standardGCM g -> length nonce = 12%nat -> 68719476704 < len plaintext ->
  Seal g dst nonce plaintext [] =
  Panics "crypto/cipher: message too large for GCM".
Proof.
  intros (Hb & Hn & Ht) Hlen Hmax. unfold Seal.
  unfold len at 1. rewrite Hlen, Hn. cbn [N.of_nat N.eqb negb Pos.of_succ_nat
    Pos.succ Pos.eqb].
  rewrite maxPlaintext_value.
  now apply N.ltb_lt in Hmax as ->.
Qed.

(** With a 12-byte nonce [Open] never panics; it fails at once on an input
    too short to hold a tag. *)
Lemma Open_short (g : gcm) (dst nonce ciphertext : bytes) :
  standardGCM g -> length nonce = 12%nat -> (length ciphertext < 16)%nat ->
  Open g dst nonce ciphertext [] = Returns ([], Some errOpen).
Proof.
  intros (Hb & Hn & Ht) Hlen Hshort. unfold Open.
  unfold len at 1. rewrite Hlen, Hn, Ht.
  cbn [N.of_nat N.eqb negb Pos.of_succ_nat Pos.succ Pos.eqb].
  change (16 <? gcmMinimumTagSize) with false. cbn iota.
  destruct (len ciphertext <? 16) eqn:E; [reflexivity|].
  apply N.ltb_ge in E. unfold len in E. lia.
Qed.

Lemma Open_returns (g : gcm) (dst nonce ciphertext : bytes) :
  standardGCM g -> length nonce = 12%nat ->
  exists r, Open g dst nonce ciphertext [] = Returns r /\
            (snd r = None \/ r = ([], Some errOpen)).
Proof.
  intros (Hb & Hn & Ht) Hlen. unfold Open.
  unfold len at 1. rewrite Hlen, Hn, Ht.
  cbn [N.of_nat N.eqb negb Pos.of_succ_nat Pos.succ Pos.eqb].
  change (16 <? gcmMinimumTagSize) with false. cbn iota.
  destruct (len ciphertext <? 16); [eauto|].
  destruct (_ <? len ciphertext); [eauto|].
  destruct (negb _); eauto.
Qed.

Theorem Open_Seal (g : gcm) (nonce plaintext : bytes) :
  standardGCM g -> length nonce = 12%nat -> len plaintext <= 68719476704 ->
  Open g [] nonce
       (sealedText g nonce plaintext ++ sealedTag g nonce plaintext) [] =
  Returns (plaintext, None).
Proof.
  intros Hg Hlen Hmax.
  pose proof (sealedText_length g nonce plaintext Hg) as HT.
  pose proof (sealedTag_length g nonce plaintext Hg) as HG.
  destruct Hg as (Hb & Hn & Ht). unfold Open.
  unfold len at 1. rewrite Hlen, Hn, Ht.
  cbn [N.of_nat N.eqb negb Pos.of_succ_nat Pos.succ Pos.eqb].
  change (16 <? gcmMinimumTagSize) with false. cbn iota.
  assert (HL : length (sealedText g nonce plaintext
                       ++ sealedTag g nonce plaintext)
               = (length plaintext + 16)%nat)
    by (rewrite length_app; lia).
  unfold len at 1. rewrite HL.
  destruct (N.of_nat (length plaintext + 16) <? 16) eqn:E1;
    [apply N.ltb_lt in E1; lia|].
  rewrite maxPlaintext_value. unfold len at 1. rewrite HL.
  destruct (68719476704 + 16 <? N.of_nat (length plaintext + 16)) eqn:E2;
    [apply N.ltb_lt in E2; unfold len in Hmax; lia|].
  change (N.to_nat 16) with 16%nat.
  replace (length plaintext + 16 - 16)%nat
    with (length (sealedText g nonce plaintext)) by lia.
  rewrite firstn_app_exact, skipn_app_exact by reflexivity.
  fold (sealedTag g nonce plaintext).
  rewrite (firstn_all2 (sealedTag g nonce plaintext)) by lia.
  rewrite subtle_facts.ConstantTimeCompare_refl. cbn [N.eqb Pos.eqb negb].
  unfold sealedText. now rewrite counterCrypt_involutive.
Qed.

(** A tag other than the one [Seal] computed is rejected. *)
Lemma Open_wrong_tag (g : gcm) (nonce plaintext tag : bytes) :
  standardGCM g -> length nonce = 12%nat -> len plaintext <= 68719476704 ->
  length tag = 16%nat -> tag <> sealedTag g nonce plaintext ->
  Open g [] nonce (sealedText g nonce plaintext ++ tag) [] =
  Returns ([], Some errOpen).
Proof.
  intros Hg Hlen Hmax Htag Hneq.
  pose proof (sealedText_length g nonce plaintext Hg) as HT.
  pose proof (sealedTag_length g nonce plaintext Hg) as HG.
  destruct Hg as (Hb & Hn & Ht). unfold Open.
  unfold len at 1. rewrite Hlen, Hn, Ht.
  cbn [N.of_nat N.eqb negb Pos.of_succ_nat Pos.succ Pos.eqb].
  change (16 <? gcmMinimumTagSize) with false. cbn iota.
  assert (HL : length (sealedText g nonce plaintext ++ tag)
               = (length plaintext + 16)%nat)
    by (rewrite length_app; lia).
  unfold len at 1. rewrite HL.
  destruct (N.of_nat (length plaintext + 16) <? 16) eqn:E1;
    [apply N.ltb_lt in E1; lia|].
  rewrite maxPlaintext_value. unfold len at 1. rewrite HL.
  destruct (68719476704 + 16 <? N.of_nat (length plaintext + 16)) eqn:E2;
    [apply N.ltb_lt in E2; unfold len in Hmax; lia|].
  change (N.to_nat 16) with 16%nat.
  replace (length plaintext + 16 - 16)%nat
    with (length (sealedText g nonce plaintext)) by lia.
  rewrite firstn_app_exact, skipn_app_exact by reflexivity.
  fold (sealedTag g nonce plaintext).
  rewrite (firstn_all2 (sealedTag g nonce plaintext)) by lia.
  rewrite subtle_facts.ConstantTimeCompare_neq by congruence.
  reflexivity.
Qed.

(** GHASH under the zero hash key is constant, so the tag no longer depends
    on the ciphertext. *)
Lemma mul_loop_zero (n : nat) : forall x z, mul_loop n x z 0 = z.
Proof.
  induction n as [|n IH]; intros x z; cbn [mul_loop]; auto.
  change (N.testbit 0 0) with false. cbn iota.
  change (N.shiftr 0 1) with 0. rewrite N.lxor_0_r.
  destruct (N.testbit x (N.of_nat n)); apply IH.
Qed.

Lemma gf_mul_zero_r (x : N) : gf_mul x 0 = 0.
Proof. unfold gf_mul. apply (mul_loop_zero 128 x 0). Qed.

Lemma auth_zero_hashKey (g : gcm) (ct ct' ad mask : bytes) :
  hashKey g = 0 -> auth g ct ad mask = auth g ct' ad mask.
Proof.
  intros H0. unfold auth. rewrite H0.
  match goal with
  | |- xor_bytes (N_to_be 16 (gf_mul ?a 0)) _
       = xor_bytes (N_to_be 16 (gf_mul ?b 0)) _ =>
      rewrite (gf_mul_zero_r a), (gf_mul_zero_r b)
  end.
  reflexivity.
Qed.

(** With the zero hash key [Open] accepts any ciphertext of the right
    length under the old tag. *)
Lemma Open_zero_hashKey (g : gcm) (nonce plaintext ct : bytes) :
  standardGCM g -> length nonce = 12%nat -> len plaintext <= 68719476704 ->
  hashKey g = 0 -> length ct = length plaintext ->
  Open g [] nonce (ct ++ sealedTag g nonce plaintext) [] =
  Returns (counterCrypt g ct (gcmInc32 (deriveCounter g nonce)), None).
Proof.
  intros Hg Hlen Hmax H0 Hct.
  pose proof (sealedText_length g nonce plaintext Hg) as HT.
  pose proof (sealedTag_length g nonce plaintext Hg) as HG.
  destruct Hg as (Hb & Hn & Ht). unfold Open.
  unfold len at 1. rewrite Hlen, Hn, Ht.
  cbn [N.of_nat N.eqb negb Pos.of_succ_nat Pos.succ Pos.eqb].
  change (16 <? gcmMinimumTagSize) with false. cbn iota.
  assert (HL : length (ct ++ sealedTag g nonce plaintext)
               = (length plaintext + 16)%nat)
    by (rewrite length_app; lia).
  unfold len at 1. rewrite HL.
  destruct (N.of_nat (length plaintext + 16) <? 16) eqn:E1;
    [apply N.ltb_lt in E1; lia|].
  rewrite maxPlaintext_value. unfold len at 1. rewrite HL.
  destruct (68719476704 + 16 <? N.of_nat (length plaintext + 16)) eqn:E2;
    [apply N.ltb_lt in E2; unfold len in Hmax; lia|].
  change (N.to_nat 16) with 16%nat.
  replace (length plaintext + 16 - 16)%nat with (length ct) by lia.
  rewrite firstn_app_exact, skipn_app_exact by reflexivity.
  rewrite (auth_zero_hashKey g ct (sealedText g nonce plaintext) [] _ H0).
  fold (sealedTag g nonce plaintext).
  rewrite (firstn_all2 (sealedTag g nonce plaintext)) by lia.
  rewrite subtle_facts.ConstantTimeCompare_refl. reflexivity.
Qed.

(** NIST GCM test cases 13, 14 and 15 (256-bit keys, 96-bit nonces). *)
Example Seal_test_case_13 :
  match aes.NewCipher (repeat x00 32) with
  | Ok b => Seal (aead b) [] (repeat x00 12) [] []
  | Err _ => Returns []
  end = Returns (hex "530f8afbc74536b9a963b4f1c4cb738b").
Proof. vm_compute. reflexivity. Qed.

Example Seal_test_case_14 :
  match aes.NewCipher (repeat x00 32) with
  | Ok b => Seal (aead b) [] (repeat x00 12) (repeat x00 16) []
  | Err _ => Returns []
  end = Returns (hex "cea7403d4d606b6e074ec5d3baf39d18d0d1c8a799996bf0265b98b5d48ab919").
Proof. vm_compute. reflexivity. Qed.

Example Seal_test_case_15 :
  match aes.NewCipher
          (hex "feffe9928665731c6d6a8f9467308308feffe9928665731c6d6a8f9467308308")
  with
  | Ok b =>
      Seal (aead b) [] (hex "cafebabefacedbaddecaf888")
        (hex "d9313225f88406e5a55909c5aff5269a86a7a9531534f7da2e4c303d8a318a721c3c0c95956809532fcf0e2449a6b525b16aedf5aa0de657ba637b391aafd255")
        []
  | Err _ => Returns []
  end = Returns (hex "522dc1f099567d07f47f37a32a84427d643a8cdcbfe5c0c97598a2bd2555d1aa8cb08e48590dbb3da7b08b1056828838c5f61e6393ba7a0abcc9f662898015adb094dac5d93471bdec1a502270e3cc6c").
Proof. vm_compute. reflexivity. Qed.

End cipher_facts.

(** ** crypto: the vault *)

Module vault.

Lemma aead_standard (key : bytes) (block : aes.Block) :
  aes.NewCipher key = Ok block -> standardGCM (aead block).
Proof.
  intros H. apply aes_facts.NewCipher_valid in H. repeat split; apply H.
Qed.

(** Keys of [crypto.keyLen] bytes are accepted by [aes.NewCipher]. *)
Lemma key32_block (v : crypto.Vault) :
  len (crypto.key v) = crypto.keyLen ->
  exists block, aes.NewCipher (crypto.key v) = Ok block.
Proof.
  intros H. apply aes_facts.NewCipher_Ok_iff. unfold len, crypto.keyLen in H.
  lia.
Qed.

Lemma blobBytes_length (key : bytes) (block : aes.Block) (nonce plaintext : bytes) :
  aes.NewCipher key = Ok block ->
  length (blobBytes block nonce plaintext)
  = (length nonce + length plaintext + 16)%nat.
Proof.
  intros H. apply aead_standard in H. unfold blobBytes.
  rewrite !length_app, cipher_facts.sealedText_length,
    cipher_facts.sealedTag_length by assumption.
  lia.
Qed.

(** [Encrypt] on a non-empty plaintext, case by case. *)
Lemma Encrypt_unfold (v : crypto.Vault) (plaintext : bytes) (rand : io.Reader)
      (block : aes.Block) :
  plaintext <> [] ->
  aes.NewCipher (crypto.key v) = Ok block ->
  crypto.Encrypt v plaintext rand =
  if Nat.leb 12 (length rand) then
    if 68719476704 <? len plaintext
    then Panics "crypto/cipher: message too large for GCM"
    else Returns (base64.EncodeToString
                    (blobBytes block (firstn 12 rand) plaintext),
                  None, skipn 12 rand)
  else
    Returns ([], Some (match rand with [] => EOF | _ => ErrUnexpectedEOF end), []).
Proof.
  intros Hne Hblock. unfold crypto.Encrypt.
  destruct (len plaintext =? 0) eqn:E; [apply len_nil_iff in E; contradiction|].
  rewrite Hblock, cipher_facts.NewGCM_Ok. fold (aead block).
  change (N.to_nat (cipher.NonceSize (aead block))) with 12%nat.
  unfold io.ReadFull. rewrite repeat_length.
  destruct (Nat.leb 12 (length rand)) eqn:El.
  - apply Nat.leb_le in El.
    pose proof (aead_standard _ _ Hblock) as Hg.
    assert (Hn : length (firstn 12 rand) = 12%nat)
      by (rewrite length_firstn; lia).
    destruct (68719476704 <? len plaintext) eqn:Em.
    + apply N.ltb_lt in Em.
      now rewrite cipher_facts.Seal_panics_large.
    + apply N.ltb_ge in Em.
      now rewrite cipher_facts.Seal_returns.
  - destruct rand; reflexivity.
Qed.

Lemma Encrypt_key_rejected (v : crypto.Vault) (plaintext : bytes)
      (rand : io.Reader) (e : error) :
  plaintext <> [] ->
  aes.NewCipher (crypto.key v) = Err e ->
  crypto.Encrypt v plaintext rand = Returns ([], Some e, rand).
Proof.
  intros Hne Hblock. unfold crypto.Encrypt.
  destruct (len plaintext =? 0) eqn:E; [apply len_nil_iff in E; contradiction|].
  now rewrite Hblock.
Qed.

(** What a successful [Encrypt] on a non-empty plaintext returned. *)
Lemma Encrypt_success (v : crypto.Vault) (s : bytes) (rand rand' : io.Reader)
      (blob : bytes) :
  s <> [] ->
  crypto.Encrypt v s rand = Returns (blob, None, rand') ->
  exists block nonce,
    aes.NewCipher (crypto.key v) = Ok block
    /\ nonce = firstn 12 rand /\ length nonce = 12%nat
    /\ len s <= 68719476704
    /\ blob = base64.EncodeToString (blobBytes block nonce s)
    /\ rand' = skipn 12 rand.
Proof.
  intros Hne H.
  destruct (aes.NewCipher (crypto.key v)) as [block|e] eqn:Hblock.
  - rewrite (Encrypt_unfold v s rand block Hne Hblock) in H.
    destruct (Nat.leb 12 (length rand)) eqn:El; [|discriminate].
    destruct (68719476704 <? len s) eqn:Em; [discriminate|].
    apply Nat.leb_le in El. apply N.ltb_ge in Em.
    exists block, (firstn 12 rand). repeat split; auto.
    + rewrite length_firstn. lia.
    + congruence.
    + congruence.
  - rewrite (Encrypt_key_rejected v s rand e Hne Hblock) in H. discriminate.
Qed.

(** [Decrypt] on a non-empty input that decodes, case by case. *)
Lemma Decrypt_unfold (v : crypto.Vault) (encoded data : bytes)
      (block : aes.Block) :
  encoded <> [] ->
  base64.DecodeString encoded = (data, None) ->
  aes.NewCipher (crypto.key v) = Ok block ->
  crypto.Decrypt v encoded =
  if len data <? 12 then Returns ([], Some crypto.errTooShort)
  else
    r <- cipher.Open (aead block) [] (firstn 12 data) (skipn 12 data) [] ;;
    match snd r with
    | Some _ => Returns ([], Some crypto.errDecryptionFailed)
    | None => Returns (fst r, None)
    end.
Proof.
  intros Hne Hdec Hblock. unfold crypto.Decrypt.
  destruct (len encoded =? 0) eqn:E; [apply len_nil_iff in E; contradiction|].
  rewrite Hdec, Hblock, cipher_facts.NewGCM_Ok. fold (aead block).
  change (cipher.NonceSize (aead block)) with 12.
  change (N.to_nat 12) with 12%nat.
  destruct (len data <? 12); [reflexivity|].
  destruct (cipher.Open _ _ _ _ _) as [[pt [e|]]|]; reflexivity.
Qed.

Lemma Decrypt_undecodable (v : crypto.Vault) (encoded data : bytes) (e : error) :
  encoded <> [] ->
  base64.DecodeString encoded = (data, Some e) ->
  crypto.Decrypt v encoded = Returns ([], Some e).
Proof.
  intros Hne Hdec. unfold crypto.Decrypt.
  destruct (len encoded =? 0) eqn:E; [apply len_nil_iff in E; contradiction|].
  now rewrite Hdec.
Qed.

(** Decrypting what [Encrypt] stores. *)
Lemma Decrypt_blob (v : crypto.Vault) (block : aes.Block) (nonce plaintext : bytes) :
  aes.NewCipher (crypto.key v) = Ok block ->
  length nonce = 12%nat -> len plaintext <= 68719476704 ->
  crypto.Decrypt v (base64.EncodeToString (blobBytes block nonce plaintext))
  = Returns (plaintext, None).
Proof.
  intros Hblock Hn Hmax.
  rewrite (Decrypt_unfold v _ (blobBytes block nonce plaintext) block);
    auto using base64_facts.DecodeString_EncodeToString.
  - assert (Hl : (len (blobBytes block nonce plaintext) <? 12) = false).
    { apply N.ltb_ge. unfold len.
      rewrite (blobBytes_length _ _ _ _ Hblock). lia. }
    rewrite Hl. unfold blobBytes.
    rewrite firstn_app_exact, skipn_app_exact by assumption.
    rewrite cipher_facts.Open_Seal; eauto using aead_standard.
  - rewrite base64_facts.encode_nil_iff. intros H.
    apply (f_equal (@length _)) in H.
    rewrite (blobBytes_length _ _ _ _ Hblock) in H. simpl in H. lia.
Qed.

Lemma setByte_length (i : nat) (b : byte) :
  forall data, length (setByte i b data) = length data.
Proof.
  induction i as [|i IH]; intros [|x data]; simpl; auto.
Qed.

Lemma setByte_app_r (b : byte) (l1 l2 : bytes) :
  forall i, (length l1 <= i)%nat ->
            setByte i b (l1 ++ l2) = (l1 ++ setByte (i - length l1) b l2)%list.
Proof.
  induction l1 as [|x l1 IH]; intros i Hi; simpl in *.
  - now rewrite Nat.sub_0_r.
  - destruct i as [|i]; [lia|]. simpl. f_equal. apply IH. lia.
Qed.

Lemma setByte_changes (b : byte) :
  forall data i, (i < length data)%nat -> nth i data x00 <> b ->
                 setByte i b data <> data.
Proof.
  induction data as [|x data IH]; intros i Hi Hb; simpl in *; [lia|].
  destruct i as [|i].
  - intros E. injection E as E. now subst.
  - intros E. injection E as E. revert E. apply IH; [lia | assumption].
Qed.

(** A blob whose tag is not the one [Seal] computed. *)
Lemma Decrypt_wrong_tag (v : crypto.Vault) (block : aes.Block)
      (nonce s tag : bytes) :
  aes.NewCipher (crypto.key v) = Ok block ->
  length nonce = 12%nat -> len s <= 68719476704 ->
  length tag = 16%nat -> tag <> sealedTag (aead block) nonce s ->
  crypto.Decrypt v (base64.EncodeToString
                      (nonce ++ sealedText (aead block) nonce s ++ tag))
  = Returns ([], Some crypto.errDecryptionFailed).
Proof.
  intros Hblock Hn Hmax Ht Hneq.
  pose proof (aead_standard _ _ Hblock) as Hg.
  rewrite (Decrypt_unfold v _ (nonce ++ sealedText (aead block) nonce s ++ tag)
                          block);
    auto using base64_facts.DecodeString_EncodeToString.
  - assert (Hl : (len (nonce ++ sealedText (aead block) nonce s ++ tag) <? 12)
                 = false).
    { apply N.ltb_ge. unfold len. rewrite !length_app. lia. }
    rewrite Hl, firstn_app_exact, skipn_app_exact by assumption.
    now rewrite cipher_facts.Open_wrong_tag.
  - rewrite base64_facts.encode_nil_iff. intros E.
    apply (f_equal (@length _)) in E. rewrite !length_app in E.
    simpl in E. lia.
Qed.

(** Changing one byte of the tag of a stored blob makes [Decrypt] report the
    decryption failure, whatever the vault's key. *)
Lemma tampered_tag_rejected (v : crypto.Vault) (s : bytes)
      (rand rand' : io.Reader) (blob data : bytes) (i : nat) (b : byte) :
  s <> [] ->
  crypto.Encrypt v s rand = Returns (blob, None, rand') ->
  base64.DecodeString blob = (data, None) ->
  (12 + length s <= i < length data)%nat ->
  nth i data x00 <> b ->
  crypto.Decrypt v (base64.EncodeToString (setByte i b data))
  = Returns ([], Some crypto.errDecryptionFailed).
Proof.
  intros Hne H Hd Hi Hb.
  destruct (Encrypt_success v s rand rand' blob Hne H)
    as (block & nonce & Hblock & _ & Hn & Em & -> & _).
  rewrite base64_facts.DecodeString_EncodeToString in Hd.
  assert (Hdata0 : data = blobBytes block nonce s) by congruence.
  subst data. clear Hd.
  pose proof (aead_standard _ _ Hblock) as Hg.
  rewrite (blobBytes_length _ _ _ _ Hblock), Hn in Hi.
  pose proof (cipher_facts.sealedText_length (aead block) nonce s Hg) as HT.
  pose proof (cipher_facts.sealedTag_length (aead block) nonce s Hg) as HG.
  unfold blobBytes in *.
  rewrite setByte_app_r by lia. rewrite setByte_app_r by lia.
  rewrite app_nth2 in Hb by lia. rewrite app_nth2 in Hb by lia.
  rewrite Hn, HT in *.
  apply Decrypt_wrong_tag; auto.
  - now rewrite setByte_length.
  - apply setByte_changes; [lia | assumption].
Qed.

Lemma setByte_app_l (b : byte) (l1 l2 : bytes) :
  forall i, (i < length l1)%nat ->
            setByte i b (l1 ++ l2) = (setByte i b l1 ++ l2)%list.
Proof.
  induction l1 as [|x l1 IH]; intros i Hi; simpl in *; [lia|].
  destruct i as [|i]; [reflexivity|]. simpl. f_equal. apply IH. lia.
Qed.

(** Were the hash key of a vault (the encryption of the zero block) zero,
    changing one ciphertext byte of a stored blob would go unnoticed:
    [Decrypt] would return a plaintext other than the one stored, without
    error. *)
Lemma tampered_ciphertext_accepted (v : crypto.Vault) (block : aes.Block)
      (s : bytes) (rand rand' : io.Reader) (blob data : bytes)
      (i : nat) (b : byte) :
  aes.NewCipher (crypto.key v) = Ok block ->
  cipher.hashKey (aead block) = 0 ->
  s <> [] ->
  crypto.Encrypt v s rand = Returns (blob, None, rand') ->
  base64.DecodeString blob = (data, None) ->
  (12 <= i < 12 + length s)%nat ->
  nth i data x00 <> b ->
  exists s', s' <> s /\
             crypto.Decrypt v (base64.EncodeToString (setByte i b data))
             = Returns (s', None).
Proof.
  intros Hblock H0 Hne H Hd Hi Hb.
  destruct (Encrypt_success v s rand rand' blob Hne H)
    as (block' & nonce & Hblock' & _ & Hn & Em & -> & _).
  assert (block' = block) by congruence. subst block'. clear Hblock'.
  rewrite base64_facts.DecodeString_EncodeToString in Hd.
  assert (Hdata0 : data = blobBytes block nonce s) by congruence.
  subst data. clear Hd.
  pose proof (aead_standard _ _ Hblock) as Hg.
  pose proof (cipher_facts.sealedText_length (aead block) nonce s Hg) as HT.
  pose proof (cipher_facts.sealedTag_length (aead block) nonce s Hg) as HG.
  unfold blobBytes in *.
  rewrite setByte_app_r by lia. rewrite setByte_app_l by lia.
  rewrite app_nth2 in Hb by lia. rewrite app_nth1 in Hb by lia.
  rewrite Hn in *.
  remember (setByte (i - 12) b (sealedText (aead block) nonce s)) as ct'
    eqn:Ect'.
  assert (Hct' : length ct' = length s)
    by (subst ct'; now rewrite setByte_length).
  assert (Hdiff : ct' <> sealedText (aead block) nonce s)
    by (subst ct'; apply setByte_changes; [lia | assumption]).
  exists (cipher.counterCrypt (aead block) ct'
            (cipher.gcmInc32 (cipher.deriveCounter (aead block) nonce))).
  split.
  - intros E. apply Hdiff. unfold sealedText. rewrite <- E.
    symmetry. apply cipher_facts.counterCrypt_involutive, Hg.
  - rewrite (Decrypt_unfold v _
               (nonce ++ ct' ++ sealedTag (aead block) nonce s) block);
      auto using base64_facts.DecodeString_EncodeToString.
    + assert (Hl : (len (nonce ++ ct' ++ sealedTag (aead block) nonce s)
                    <? 12) = false).
      { apply N.ltb_ge. unfold len. rewrite !length_app. lia. }
      rewrite Hl, firstn_app_exact, skipn_app_exact by assumption.
      now rewrite cipher_facts.Open_zero_hashKey.
    + rewrite base64_facts.encode_nil_iff. intros E.
      apply (f_equal (@length _)) in E. rewrite !length_app in E.
      simpl in E. lia.
Qed.

End vault.

Lemma paddedKey_length (password salt : bytes) (t m p n : N) :
  len (paddedKey password salt t m p n) = n.
Proof.
  unfold len, paddedKey.
  rewrite length_firstn, !length_app, repeat_length.
  rewrite Nat.min_l by lia. apply N2Nat.id.
Qed.

(** ** The vault against its specification *)

(** C1. For every non-empty plaintext [s] and every vault, decrypting the
    blob of a successful [Encrypt v s] under the same vault returns [s]
    without error.  With a 32-byte key, twelve bytes of entropy and a
    plaintext within the GCM size limit, [Encrypt] does succeed. *)
Theorem Decrypt_Encrypt_roundtrip (v : crypto.Vault) (s : bytes) (rand : io.Reader) :
  s <> [] ->
  (forall blob rand',
      crypto.Encrypt v s rand = Returns (blob, None, rand') ->
      crypto.Decrypt v blob = Returns (s, None))
  /\ (len (crypto.key v) = crypto.keyLen ->
      (12 <= length rand)%nat -> len s <= 68719476704 ->
      exists blob, crypto.Encrypt v s rand = Returns (blob, None, skipn 12 rand)).
Proof.
  intros Hne. split.
  - intros blob rand' H.
    destruct (vault.Encrypt_success v s rand rand' blob Hne H)
      as (block & nonce & Hb & _ & Hn & Em & -> & _).
    now apply vault.Decrypt_blob.
  - intros Hk Hr Hs. destruct (vault.key32_block v Hk) as [block Hb].
    rewrite (vault.Encrypt_unfold v s rand block Hne Hb).
    apply Nat.leb_le in Hr. rewrite Hr.
    apply N.ltb_ge in Hs. rewrite Hs. eauto.
Qed.

Lemma Decrypt_Encrypt_roundtrip_witness :
  exists blob,
    crypto.Encrypt sampleVault sampleSecret sampleEntropy
    = Returns (blob, None, []) /\
    crypto.Decrypt sampleVault blob = Returns (sampleSecret, None).
Proof.
  destruct (Decrypt_Encrypt_roundtrip sampleVault sampleSecret sampleEntropy)
    as [H1 H2].
  - discriminate.
  - destruct H2 as [blob Hb].
    + reflexivity.
    + vm_compute. lia.
    + vm_compute. discriminate.
    + exists blob. split; [exact Hb | exact (H1 _ _ Hb)].
Defined.

(** C6. [Encrypt] and [Decrypt] return the empty string and no error on the
    empty string, for every vault whatever its key, and [Encrypt] leaves the
    entropy source untouched: no cipher is set up. *)
Theorem empty_string_convention (v : crypto.Vault) (rand : io.Reader) :
  crypto.Encrypt v [] rand = Returns ([], None, rand)
  /\ crypto.Decrypt v [] = Returns ([], None).
Proof. split; reflexivity. Qed.

(** C10. The blob of a successful [Encrypt] on a non-empty plaintext decodes
    to a 12-byte nonce, a ciphertext as long as the plaintext and a 16-byte
    tag: [len(plaintext) + 28] bytes. *)
Theorem Encrypt_blob_length (v : crypto.Vault) (s : bytes)
        (rand rand' : io.Reader) (blob : bytes) :
  s <> [] ->
  crypto.Encrypt v s rand = Returns (blob, None, rand') ->
  exists nonce ct tag,
    base64.DecodeString blob = ((nonce ++ ct ++ tag)%list, None)
    /\ length nonce = 12%nat /\ length ct = length s /\ length tag = 16%nat
    /\ length (nonce ++ ct ++ tag) = (length s + 28)%nat.
Proof.
  intros Hne H.
  destruct (vault.Encrypt_success v s rand rand' blob Hne H)
    as (block & nonce & Hb & _ & Hn & Em & -> & _).
  pose proof (vault.aead_standard _ _ Hb) as Hg.
  pose proof (cipher_facts.sealedText_length (aead block) nonce s Hg) as HT.
  pose proof (cipher_facts.sealedTag_length (aead block) nonce s Hg) as HG.
  exists nonce, (sealedText (aead block) nonce s),
    (sealedTag (aead block) nonce s).
  repeat split; auto.
  - apply base64_facts.DecodeString_EncodeToString.
  - rewrite !length_app, Hn, HT, HG. lia.
Qed.

Lemma Encrypt_blob_length_witness :
  exists blob nonce ct tag,
    crypto.Encrypt sampleVault sampleSecret sampleEntropy
    = Returns (blob, None, [])
    /\ base64.DecodeString blob = ((nonce ++ ct ++ tag)%list, None)
    /\ length (nonce ++ ct ++ tag) = 41%nat.
Proof.
  eexists.
  destruct (Encrypt_blob_length sampleVault sampleSecret sampleEntropy []
              _ ltac:(discriminate) ltac:(vm_compute; reflexivity))
    as (nonce & ct & tag & Hd & _ & _ & _ & Hl).
  exists nonce, ct, tag. split; [vm_compute; reflexivity|]. split; assumption.
Defined.

(** C9. When the input decodes to at least 12 but fewer than 28 bytes, a
    nonce is there but no whole tag: [Decrypt] reports the decryption
    failure, not a too-short ciphertext. *)
Theorem Decrypt_truncated_tag (v : crypto.Vault) (encoded data : bytes) :
  len (crypto.key v) = crypto.keyLen ->
  base64.DecodeString encoded = (data, None) ->
  (12 <= length data < 28)%nat ->
  crypto.Decrypt v encoded = Returns ([], Some crypto.errDecryptionFailed)
  /\ crypto.Decrypt v encoded <> Returns ([], Some crypto.errTooShort).
Proof.
  intros Hk Hd Hl.
  assert (E : crypto.Decrypt v encoded
              = Returns ([], Some crypto.errDecryptionFailed)).
  { destruct (vault.key32_block v Hk) as [block Hb].
    assert (Hne : encoded <> []).
    { intros ->. injection Hd as <-. simpl in Hl. lia. }
    rewrite (vault.Decrypt_unfold v encoded data block Hne Hd Hb).
    assert (Hlt : (len data <? 12) = false)
      by (apply N.ltb_ge; unfold len; lia).
    rewrite Hlt, cipher_facts.Open_short; eauto using vault.aead_standard.
    - rewrite length_firstn. lia.
    - rewrite length_skipn. lia. }
  split; [exact E|]. rewrite E. discriminate.
Qed.

Lemma Decrypt_truncated_tag_witness :
  crypto.Decrypt sampleVault (list_byte_of_string "AAAAAAAAAAAAAAAAAAAA")
  = Returns ([], Some crypto.errDecryptionFailed).
Proof.
  apply (Decrypt_truncated_tag sampleVault
           (list_byte_of_string "AAAAAAAAAAAAAAAAAAAA") (repeat x00 15)).
  - reflexivity.
  - vm_compute. reflexivity.
  - simpl. lia.
Defined.

Lemma base64_error_kind (s data : bytes) (e : error) :
  base64.DecodeString s = (data, Some e) -> e = CorruptInputError.
Proof.
  unfold base64.DecodeString. generalize (@nil N) as dbuf. revert data.
  induction s as [|c rest IH]; intros data dbuf H; cbn [base64.decode] in H.
  - destruct dbuf; congruence.
  - destruct (negb (base64.decodeMap c =? 255)).
    + destruct (Nat.eqb _ 4).
      * unfold base64.prepend in H.
        destruct (base64.decode rest []) as [d' e'] eqn:E.
        cbn [fst snd] in H.
        assert (He : e' = Some e) by congruence. subst e'.
        eapply IH, E.
      * eapply IH, H.
    + destruct (base64.isNewline c); [eapply IH, H|].
      destruct (negb (Byte.eqb c base64.padChar)); [congruence|].
      destruct (length dbuf) as [|[|[|j]]]; try congruence.
      * destruct (base64.skipNewlines rest) as [|c' rest']; [congruence|].
        destruct (negb (Byte.eqb c' base64.padChar)); [congruence|].
        destruct (base64.skipNewlines rest'); congruence.
      * destruct (base64.skipNewlines rest); congruence.
Qed.

(** C5. On a non-empty input a vault with a 32-byte key always returns from
    [Decrypt]; the error is a malformed-blob error exactly when the input is
    not valid base64 or decodes to fewer than 12 bytes, it is the decryption
    failure exactly when the input decodes to at least 12 bytes and GCM
    authentication fails, and no other error is returned. *)
Theorem Decrypt_error_kinds (v : crypto.Vault) (encoded data : bytes)
        (derr : option error) :
  len (crypto.key v) = crypto.keyLen ->
  encoded <> [] ->
  base64.DecodeString encoded = (data, derr) ->
  exists plaintext err,
    crypto.Decrypt v encoded = Returns (plaintext, err)
    /\ ((exists e, err = Some e /\ MalformedBlob e)
        <-> (derr <> None \/ (length data < 12)%nat))
    /\ ((exists e, err = Some e /\ DecryptionFailed e)
        <-> (derr = None /\ (12 <= length data)%nat
             /\ authenticationFails v data = true))
    /\ (forall e, err = Some e -> MalformedBlob e \/ DecryptionFailed e).
Proof.
  intros Hk Hne Hd. destruct (vault.key32_block v Hk) as [block Hb].
  assert (Hauth : authenticationFails v data =
                  match cipher.Open (aead block) [] (firstn 12 data)
                                    (skipn 12 data) [] with
                  | Returns (_, Some _) => true
                  | _ => false
                  end).
  { unfold authenticationFails. now rewrite Hb, cipher_facts.NewGCM_Ok. }
  destruct derr as [e|].
  - (* the input is not valid base64 *)
    pose proof (base64_error_kind _ _ _ Hd) as ->.
    rewrite (vault.Decrypt_undecodable v encoded data _ Hne Hd).
    exists [], (Some CorruptInputError). split; [reflexivity|].
    split; [|split].
    + split.
      * intros _. left. discriminate.
      * intros _. exists CorruptInputError. split; [reflexivity|].
        now left.
    + split.
      * intros (e & He & Hf). unfold DecryptionFailed in Hf. subst e.
        discriminate.
      * intros (H & _). discriminate.
    + intros e He. left. left. congruence.
  - rewrite (vault.Decrypt_unfold v encoded data block Hne Hd Hb).
    destruct (len data <? 12) eqn:El.
    + (* fewer than 12 bytes *)
      apply N.ltb_lt in El. unfold len in El.
      exists [], (Some crypto.errTooShort). split; [reflexivity|].
      split; [|split].
      * split.
        -- intros _. right. lia.
        -- intros _. exists crypto.errTooShort. split; [reflexivity|].
           now right.
      * split.
        -- intros (e & He & Hf). unfold DecryptionFailed in Hf. subst e.
           discriminate.
        -- intros (_ & H & _). lia.
      * intros e He. left. right. congruence.
    + apply N.ltb_ge in El. unfold len in El.
      destruct (cipher_facts.Open_returns (aead block) []
                  (firstn 12 data) (skipn 12 data)) as (r & Hr & _).
      * eauto using vault.aead_standard.
      * rewrite length_firstn. lia.
      * rewrite Hr in Hauth. rewrite Hr. cbn [bind].
        destruct r as [pt [e|]]; cbn [snd fst].
        -- (* authentication fails *)
           exists [], (Some crypto.errDecryptionFailed).
           split; [reflexivity|]. split; [|split].
           ++ split.
              ** intros (e' & He & [Hf|Hf]); subst e'; discriminate.
              ** intros [H|H]; [congruence | lia].
           ++ split.
              ** intros _. repeat split; auto; lia.
              ** intros _. exists crypto.errDecryptionFailed.
                 split; reflexivity.
           ++ intros e' He. right. unfold DecryptionFailed. congruence.
        -- (* authentication succeeds *)
           exists pt, None. split; [reflexivity|]. split; [|split].
           ++ split.
              ** intros (e' & He & _). discriminate.
              ** intros [H|H]; [congruence | lia].
           ++ split.
              ** intros (e' & He & _). discriminate.
              ** intros (_ & _ & H). rewrite Hauth in H. discriminate.
           ++ intros e' He. discriminate.
Qed.

Lemma Decrypt_error_kinds_witness :
  exists plaintext err,
    crypto.Decrypt sampleVault (list_byte_of_string "not-base64!!")
    = Returns (plaintext, err)
    /\ exists e, err = Some e /\ MalformedBlob e.
Proof.
  destruct (Decrypt_error_kinds sampleVault
              (list_byte_of_string "not-base64!!") []
              (Some CorruptInputError))
    as (pt & err & Hr & Hm & _).
  - reflexivity.
  - discriminate.
  - vm_compute. reflexivity.
  - exists pt, err. split; [exact Hr|]. apply Hm. left. discriminate.
Defined.

(** C7. A stored hash that is not valid base64 makes [VerifyPassword] return
    false, for every password and salt. *)
Theorem VerifyPassword_undecodable
        (IDKey : bytes -> bytes -> N -> N -> N -> N -> bytes)
        (password salt storedHash : bytes) :
  snd (base64.DecodeString storedHash) <> None ->
  crypto.VerifyPassword IDKey password salt storedHash = false.
Proof.
  intros H. unfold crypto.VerifyPassword.
  destruct (base64.DecodeString storedHash) as [decoded [e|]];
    [reflexivity | now elim H].
Qed.

Lemma VerifyPassword_undecodable_witness :
  crypto.VerifyPassword paddedKey (list_byte_of_string "correct horse")
                        (repeat x00 16) (list_byte_of_string "not-base64!!")
  = false.
Proof.
  apply VerifyPassword_undecodable. vm_compute. discriminate.
Defined.

(** C3. [VerifyPassword] accepts the hash [HashPassword] made from the same
    password and salt, and rejects it for any other password whose derived
    hash differs. *)
Theorem VerifyPassword_HashPassword
        (IDKey : bytes -> bytes -> N -> N -> N -> N -> bytes)
        (pw wrongPw salt : bytes) :
  crypto.VerifyPassword IDKey pw salt (crypto.HashPassword IDKey pw salt) = true
  /\ (derive IDKey wrongPw salt <> derive IDKey pw salt ->
      crypto.VerifyPassword IDKey wrongPw salt
                            (crypto.HashPassword IDKey pw salt) = false).
Proof.
  unfold crypto.VerifyPassword, crypto.HashPassword, derive.
  rewrite base64_facts.DecodeString_EncodeToString. split.
  - now rewrite subtle_facts.ConstantTimeCompare_refl.
  - intros H. now rewrite subtle_facts.ConstantTimeCompare_neq.
Qed.

Lemma VerifyPassword_HashPassword_witness :
  crypto.VerifyPassword paddedKey (list_byte_of_string "correct horse")
    (repeat x00 16)
    (crypto.HashPassword paddedKey (list_byte_of_string "correct horse")
                         (repeat x00 16)) = true
  /\ crypto.VerifyPassword paddedKey (list_byte_of_string "wrong horse")
       (repeat x00 16)
       (crypto.HashPassword paddedKey (list_byte_of_string "correct horse")
                            (repeat x00 16)) = false.
Proof.
  destruct (VerifyPassword_HashPassword paddedKey
              (list_byte_of_string "correct horse")
              (list_byte_of_string "wrong horse") (repeat x00 16)) as [H1 H2].
  split; [exact H1|]. apply H2. vm_compute. discriminate.
Defined.

(** C4. Provided Argon2 returns as many bytes as it is asked for, the string
    [HashPassword] returns is the base64 encoding of exactly the key that
    [NewVault] keeps for the same password and salt, that key has 32 bytes,
    and decoding the hash gives the key back. *)
Theorem HashPassword_is_vault_key
        (IDKey : bytes -> bytes -> N -> N -> N -> N -> bytes)
        (password salt : bytes) :
  (forall p s t m l n, len (IDKey p s t m l n) = n) ->
  crypto.HashPassword IDKey password salt
  = base64.EncodeToString (crypto.key (crypto.NewVault IDKey password salt))
  /\ length (crypto.key (crypto.NewVault IDKey password salt)) = 32%nat
  /\ base64.DecodeString (crypto.HashPassword IDKey password salt)
     = (crypto.key (crypto.NewVault IDKey password salt), None).
Proof.
  intros Hlen. unfold crypto.HashPassword, crypto.NewVault. cbn [crypto.key].
  repeat split.
  - specialize (Hlen password salt crypto.argonTime crypto.argonMem
                     crypto.argonParts crypto.keyLen).
    apply Nat2N.inj. unfold len in Hlen. rewrite Hlen. reflexivity.
  - apply base64_facts.DecodeString_EncodeToString.
Qed.

Lemma HashPassword_is_vault_key_witness :
  crypto.HashPassword paddedKey (list_byte_of_string "correct horse")
                      (repeat x00 16)
  = base64.EncodeToString
      (crypto.key (crypto.NewVault paddedKey
                     (list_byte_of_string "correct horse") (repeat x00 16))).
Proof.
  apply (HashPassword_is_vault_key paddedKey
           (list_byte_of_string "correct horse") (repeat x00 16)).
  intros p s t m l n. apply paddedKey_length.
Defined.

(** C8. With a store at hand [UnlockVault] always returns.  It reports true,
    and then keeps a vault made from the password and the stored salt, only
    when both settings were read, the salt decoded and [VerifyPassword]
    accepted the password against the stored hash.  When the settings are
    read and [VerifyPassword] rejects the password, it reports false with no
    error and leaves the application as it was, so a locked application
    stays locked.  On every other path it reports false and changes
    nothing. *)
Theorem UnlockVault_outcomes
        (IDKey : bytes -> bytes -> N -> N -> N -> N -> bytes)
        (a : main.App) (s : store.Store) (password : bytes) :
  main.store a = Some s ->
  exists ok err a',
    main.UnlockVault IDKey a password = Returns (ok, err, a')
    /\ (ok = true ->
        err = None /\
        exists saltB64 salt hash,
          store.GetConfig s main.master_salt = (saltB64, None)
          /\ base64.DecodeString saltB64 = (salt, None)
          /\ store.GetConfig s main.master_hash = (hash, None)
          /\ crypto.VerifyPassword IDKey password salt hash = true
          /\ a' = {| main.store := main.store a;
                     main.vault := Some (crypto.NewVault IDKey password salt) |})
    /\ (ok = false -> a' = a)
    /\ (forall saltB64 salt hash,
          store.GetConfig s main.master_salt = (saltB64, None) ->
          base64.DecodeString saltB64 = (salt, None) ->
          store.GetConfig s main.master_hash = (hash, None) ->
          crypto.VerifyPassword IDKey password salt hash = false ->
          ok = false /\ err = None /\ a' = a
          /\ (main.vault a = None -> main.IsUnlocked a' = false)).
Proof.
  intros Hs. unfold main.UnlockVault. rewrite Hs.
  destruct (store.GetConfig s main.master_salt) as [saltB64 [e1|]] eqn:G1.
  { exists false, (Some e1), a. split; [reflexivity|].
    split; [discriminate|]. split; [reflexivity|].
    intros sb sa ha H1. discriminate. }
  destruct (base64.DecodeString saltB64) as [salt [e2|]] eqn:Hd.
  { exists false, (Some e2), a. split; [reflexivity|].
    split; [discriminate|]. split; [reflexivity|].
    intros sb sa ha H1 H2.
    assert (sb = saltB64) by congruence. subst sb. congruence. }
  destruct (store.GetConfig s main.master_hash) as [hash [e3|]] eqn:G2.
  { exists false, (Some e3), a. split; [reflexivity|].
    split; [discriminate|]. split; [reflexivity|].
    intros sb sa ha H1 H2 H3. discriminate. }
  destruct (crypto.VerifyPassword IDKey password salt hash) eqn:Hv; cbn [negb].
  - exists true, None,
      {| main.store := Some s;
         main.vault := Some (crypto.NewVault IDKey password salt) |}.
    split; [reflexivity|]. split; [|split].
    + intros _. split; [reflexivity|].
      exists saltB64, salt, hash. repeat split; assumption.
    + discriminate.
    + intros sb sa ha H1 H2 H3 H4.
      assert (sb = saltB64) by congruence. subst sb.
      assert (sa = salt) by congruence. subst sa.
      assert (ha = hash) by congruence. subst ha. congruence.
  - exists false, None, a. split; [reflexivity|].
    split; [discriminate|]. split; [reflexivity|].
    intros sb sa ha _ _ _ _. repeat split.
    intros Hva. unfold main.IsUnlocked. now rewrite Hva.
Qed.

Lemma UnlockVault_outcomes_witness :
  main.UnlockVault paddedKey lockedApp (list_byte_of_string "wrong horse")
  = Returns (false, None, lockedApp).
Proof.
  destruct (UnlockVault_outcomes paddedKey lockedApp sampleStore
              (list_byte_of_string "wrong horse") eq_refl)
    as (ok & err & a' & Hr & _ & _ & Hrej).
  destruct (Hrej (base64.EncodeToString sampleSalt) sampleSalt
                 (crypto.HashPassword paddedKey
                    (list_byte_of_string "correct horse") sampleSalt))
    as (-> & -> & -> & _);
    first [exact Hr | vm_compute; reflexivity].
Defined.

(** * The vault's life cycle beyond the specification's claims *)

Module lifecycle.

Lemma GenerateSalt_enough (rand : io.Reader) :
  (16 <= length rand)%nat ->
  crypto.GenerateSalt rand = (firstn 16 rand, None, skipn 16 rand).
Proof.
  intros H. unfold crypto.GenerateSalt, io.ReadFull.
  change (N.to_nat crypto.saltLen) with 16%nat. rewrite repeat_length.
  apply Nat.leb_le in H. now rewrite H.
Qed.

Lemma GenerateSalt_short (rand : io.Reader) :
  (length rand < 16)%nat ->
  crypto.GenerateSalt rand
  = ([], Some (match rand with [] => EOF | _ => ErrUnexpectedEOF end), []).
Proof.
  intros H. unfold crypto.GenerateSalt, io.ReadFull.
  change (N.to_nat crypto.saltLen) with 16%nat. rewrite repeat_length.
  apply Nat.leb_gt in H. rewrite H. now destruct rand.
Qed.

Lemma selectValue_upsert_same (key value : bytes) (rows : list (bytes * bytes)) :
  store.selectValue key (store.upsertValue key value rows) = Some value.
Proof.
  induction rows as [|[k v] rows IH]; cbn [store.upsertValue store.selectValue].
  - destruct (list_eq_dec Byte.byte_eq_dec key key); congruence.
  - destruct (list_eq_dec Byte.byte_eq_dec k key) as [E|E];
      cbn [store.selectValue].
    + destruct (list_eq_dec Byte.byte_eq_dec k key); congruence.
    + destruct (list_eq_dec Byte.byte_eq_dec k key); congruence.
Qed.

Lemma selectValue_upsert_other (key k' value : bytes)
      (rows : list (bytes * bytes)) :
  k' <> key ->
  store.selectValue k' (store.upsertValue key value rows)
  = store.selectValue k' rows.
Proof.
  intros Hne.
  induction rows as [|[k v] rows IH]; cbn [store.upsertValue store.selectValue].
  - destruct (list_eq_dec Byte.byte_eq_dec key k'); congruence.
  - destruct (list_eq_dec Byte.byte_eq_dec k key) as [E|E];
      cbn [store.selectValue].
    + destruct (list_eq_dec Byte.byte_eq_dec k k'); congruence.
    + destruct (list_eq_dec Byte.byte_eq_dec k k'); congruence.
Qed.

Lemma upsertValue_keys (key value : bytes) (rows : list (bytes * bytes)) :
  forall k, In k (map fst (store.upsertValue key value rows))
            <-> k = key \/ In k (map fst rows).
Proof.
  induction rows as [|[k0 v0] rows IH]; intros k; cbn [store.upsertValue].
  - simpl. intuition congruence.
  - destruct (list_eq_dec Byte.byte_eq_dec k0 key) as [E|E]; simpl.
    + subst. intuition congruence.
    + rewrite IH. intuition congruence.
Qed.

Lemma upsertValue_NoDup (key value : bytes) (rows : list (bytes * bytes)) :
  NoDup (map fst rows) -> NoDup (map fst (store.upsertValue key value rows)).
Proof.
  induction rows as [|[k0 v0] rows IH]; intros Hnd; cbn [store.upsertValue].
  - simpl. constructor; [intros [] | constructor].
  - destruct (list_eq_dec Byte.byte_eq_dec k0 key) as [E|E].
    + exact Hnd.
    + simpl in *. inversion Hnd as [|? ? Hin Hnd']; subst.
      constructor; [|now apply IH].
      rewrite upsertValue_keys. intros [H|H]; [congruence | contradiction].
Qed.

Lemma GetConfig_stored (s : store.Store) (key value : bytes) :
  store.failure s key = None ->
  store.selectValue key (store.app_config s) = Some value ->
  store.GetConfig s key = (value, None).
Proof. intros Hf Hv. unfold store.GetConfig. now rewrite Hf, Hv. Qed.

Lemma GetConfig_missing (s : store.Store) (key : bytes) :
  store.failure s key = None ->
  store.selectValue key (store.app_config s) = None ->
  store.GetConfig s key = ([], None).
Proof. intros Hf Hv. unfold store.GetConfig. now rewrite Hf, Hv. Qed.

Lemma SetConfig_ok (s : store.Store) (key value : bytes) :
  store.failure s key = None ->
  store.SetConfig s key value
  = ({| store.app_config := store.upsertValue key value (store.app_config s);
        store.failure := store.failure s |}, None).
Proof. intros Hf. unfold store.SetConfig. now rewrite Hf. Qed.

Lemma SetConfig_fails (s : store.Store) (key value : bytes) (e : error) :
  store.failure s key = Some e -> store.SetConfig s key value = (s, Some e).
Proof. intros Hf. unfold store.SetConfig. now rewrite Hf. Qed.

Lemma salt_key_neq_hash_key : main.master_salt <> main.master_hash.
Proof. discriminate. Qed.

(** [VerifyPassword] accepts exactly the strings that decode to the derived
    key. *)
Lemma VerifyPassword_true_iff
      (IDKey : bytes -> bytes -> N -> N -> N -> N -> bytes)
      (password salt storedHash : bytes) :
  crypto.VerifyPassword IDKey password salt storedHash = true
  <-> base64.DecodeString storedHash = (derive IDKey password salt, None).
Proof.
  unfold crypto.VerifyPassword. fold (derive IDKey password salt).
  destruct (base64.DecodeString storedHash) as [decoded [e|]].
  - split; [discriminate | congruence].
  - rewrite N.eqb_eq, subtle_facts.ConstantTimeCompare_spec.
    split; congruence.
Qed.

Lemma SetMasterPassword_ok
      (IDKey : bytes -> bytes -> N -> N -> N -> N -> bytes)
      (a : main.App) (s : store.Store) (password : bytes) (rand : io.Reader) :
  main.store a = Some s ->
  store.failure s main.master_salt = None ->
  store.failure s main.master_hash = None ->
  (16 <= length rand)%nat ->
  main.SetMasterPassword IDKey a password rand
  = Returns (None,
             {| main.store :=
                  Some (storeWithMaster IDKey s password (firstn 16 rand));
                main.vault :=
                  Some (crypto.NewVault IDKey password (firstn 16 rand)) |},
             skipn 16 rand).
Proof.
  intros Hs Hf1 Hf2 Hr. unfold main.SetMasterPassword.
  rewrite (GenerateSalt_enough rand Hr), Hs.
  rewrite (SetConfig_ok s _ _ Hf1).
  rewrite SetConfig_ok by exact Hf2.
  reflexivity.
Qed.

Lemma storeWithMaster_salt
      (IDKey : bytes -> bytes -> N -> N -> N -> N -> bytes)
      (s : store.Store) (password salt : bytes) :
  store.failure s main.master_salt = None ->
  store.GetConfig (storeWithMaster IDKey s password salt) main.master_salt
  = (base64.EncodeToString salt, None).
Proof.
  intros Hf. apply GetConfig_stored; [exact Hf|].
  unfold storeWithMaster. cbn [store.app_config].
  rewrite selectValue_upsert_other by exact salt_key_neq_hash_key.
  apply selectValue_upsert_same.
Qed.

Lemma storeWithMaster_hash
      (IDKey : bytes -> bytes -> N -> N -> N -> N -> bytes)
      (s : store.Store) (password salt : bytes) :
  store.failure s main.master_hash = None ->
  store.GetConfig (storeWithMaster IDKey s password salt) main.master_hash
  = (crypto.HashPassword IDKey password salt, None).
Proof.
  intros Hf. apply GetConfig_stored; [exact Hf|].
  unfold storeWithMaster. cbn [store.app_config].
  apply selectValue_upsert_same.
Qed.

(** [UnlockVault] once salt and hash were read. *)
Lemma UnlockVault_read
      (IDKey : bytes -> bytes -> N -> N -> N -> N -> bytes)
      (a : main.App) (s : store.Store) (password saltB64 salt hash : bytes) :
  main.store a = Some s ->
  store.GetConfig s main.master_salt = (saltB64, None) ->
  base64.DecodeString saltB64 = (salt, None) ->
  store.GetConfig s main.master_hash = (hash, None) ->
  main.UnlockVault IDKey a password
  = if crypto.VerifyPassword IDKey password salt hash
    then Returns (true, None,
                  {| main.store := Some s;
                     main.vault := Some (crypto.NewVault IDKey password salt) |})
    else Returns (false, None, a).
Proof.
  intros Hs H1 H2 H3. unfold main.UnlockVault.
  rewrite Hs, H1, H2, H3.
  now destruct (crypto.VerifyPassword IDKey password salt hash).
Qed.

End lifecycle.

(** X1. [GenerateSalt] succeeds exactly when the entropy source still holds
    16 bytes; it then returns those 16 bytes and leaves the rest.  On
    failure no salt is returned. *)
Theorem GenerateSalt_outcomes (rand : io.Reader) :
  let '(salt, err, rest) := crypto.GenerateSalt rand in
  (err = None <-> (16 <= length rand)%nat)
  /\ (err = None -> length salt = 16%nat /\ (salt ++ rest)%list = rand)
  /\ (err <> None -> salt = []).
Proof.
  destruct (Nat.le_gt_cases 16 (length rand)) as [H|H].
  - rewrite (lifecycle.GenerateSalt_enough rand H). repeat split; auto.
    + rewrite length_firstn. lia.
    + apply firstn_skipn.
    + intros E. now elim E.
  - rewrite (lifecycle.GenerateSalt_short rand H). repeat split.
    + discriminate.
    + intros H'. lia.
    + discriminate.
    + discriminate.
Qed.

(** X2. After a successful [SetConfig key value], [GetConfig key] returns
    [value], every other key reads as before, and the keys of the table stay
    unique. *)
Theorem SetConfig_GetConfig (s : store.Store) (key value : bytes) :
  store.failure s key = None ->
  exists s',
    store.SetConfig s key value = (s', None)
    /\ store.GetConfig s' key = (value, None)
    /\ (forall k, k <> key -> store.GetConfig s' k = store.GetConfig s k)
    /\ (NoDup (map fst (store.app_config s)) ->
        NoDup (map fst (store.app_config s'))).
Proof.
  intros Hf. eexists. split; [apply (lifecycle.SetConfig_ok s key value Hf)|].
  split; [|split].
  - apply lifecycle.GetConfig_stored; [exact Hf|].
    apply lifecycle.selectValue_upsert_same.
  - intros k Hk. unfold store.GetConfig. cbn [store.failure store.app_config].
    now rewrite lifecycle.selectValue_upsert_other.
  - apply lifecycle.upsertValue_NoDup.
Qed.

Lemma SetConfig_GetConfig_witness :
  exists s',
    store.SetConfig sampleStore main.master_salt sampleSecret = (s', None)
    /\ store.GetConfig s' main.master_salt = (sampleSecret, None).
Proof.
  destruct (SetConfig_GetConfig sampleStore main.master_salt sampleSecret
              eq_refl) as (s' & H1 & H2 & _).
  exists s'. split; assumption.
Defined.

(** X3. When both settings can be written and 16 bytes of entropy are left,
    [SetMasterPassword] succeeds and keeps a vault made from the password
    and the fresh salt.  On the store it leaves behind, a locked application
    (as after a restart) is unlocked by the same password, with the same
    vault, and is refused, staying locked, for any password that derives a
    different key. *)
Theorem SetMasterPassword_then_UnlockVault
        (IDKey : bytes -> bytes -> N -> N -> N -> N -> bytes)
        (a : main.App) (s : store.Store) (password : bytes) (rand : io.Reader) :
  main.store a = Some s ->
  store.failure s main.master_salt = None ->
  store.failure s main.master_hash = None ->
  (16 <= length rand)%nat ->
  exists a',
    main.SetMasterPassword IDKey a password rand
    = Returns (None, a', skipn 16 rand)
    /\ main.vault a'
       = Some (crypto.NewVault IDKey password (firstn 16 rand))
    /\ main.UnlockVault IDKey
         {| main.store := main.store a'; main.vault := None |} password
       = Returns (true, None, a')
    /\ (forall wrongPw,
          derive IDKey wrongPw (firstn 16 rand)
          <> derive IDKey password (firstn 16 rand) ->
          main.UnlockVault IDKey
            {| main.store := main.store a'; main.vault := None |} wrongPw
          = Returns (false, None,
                     {| main.store := main.store a'; main.vault := None |})).
Proof.
  intros Hs Hf1 Hf2 Hr. eexists.
  split; [apply (lifecycle.SetMasterPassword_ok IDKey a s password rand);
          assumption|].
  cbn [main.vault main.store]. split; [reflexivity|].
  set (salt := firstn 16 rand).
  assert (Hread : forall pw locked,
             main.store locked
             = Some (storeWithMaster IDKey s password salt) ->
             main.UnlockVault IDKey locked pw
             = if crypto.VerifyPassword IDKey pw salt
                    (crypto.HashPassword IDKey password salt)
               then Returns (true, None,
                             {| main.store :=
                                  Some (storeWithMaster
                                          IDKey s password salt);
                                main.vault :=
                                  Some (crypto.NewVault IDKey pw salt) |})
               else Returns (false, None, locked)).
  { intros pw locked Hl.
    apply (lifecycle.UnlockVault_read IDKey locked _ pw
             (base64.EncodeToString salt) salt _ Hl).
    - now apply lifecycle.storeWithMaster_salt.
    - apply base64_facts.DecodeString_EncodeToString.
    - now apply lifecycle.storeWithMaster_hash. }
  split.
  - rewrite Hread by reflexivity.
    assert (Hv : crypto.VerifyPassword IDKey password salt
                   (crypto.HashPassword IDKey password salt) = true).
    { apply lifecycle.VerifyPassword_true_iff.
      apply base64_facts.DecodeString_EncodeToString. }
    now rewrite Hv.
  - intros wrongPw Hne. rewrite Hread by reflexivity.
    destruct (crypto.VerifyPassword IDKey wrongPw salt
                (crypto.HashPassword IDKey password salt)) eqn:Hv;
      [|reflexivity].
    apply lifecycle.VerifyPassword_true_iff in Hv.
    unfold crypto.HashPassword in Hv.
    rewrite base64_facts.DecodeString_EncodeToString in Hv.
    exfalso. apply Hne. unfold derive in *. subst salt. congruence.
Qed.

Lemma SetMasterPassword_then_UnlockVault_witness :
  exists a',
    main.SetMasterPassword paddedKey freshApp
      (list_byte_of_string "correct horse") saltEntropy
    = Returns (None, a', skipn 16 saltEntropy)
    /\ main.UnlockVault paddedKey
         {| main.store := main.store a'; main.vault := None |}
         (list_byte_of_string "correct horse")
       = Returns (true, None, a')
    /\ main.UnlockVault paddedKey
         {| main.store := main.store a'; main.vault := None |}
         (list_byte_of_string "wrong horse")
       = Returns (false, None,
                  {| main.store := main.store a'; main.vault := None |}).
Proof.
  destruct (SetMasterPassword_then_UnlockVault paddedKey freshApp emptyStore
              (list_byte_of_string "correct horse") saltEntropy
              eq_refl eq_refl eq_refl ltac:(vm_compute; lia))
    as (a' & H1 & _ & H3 & H4).
  exists a'. split; [exact H1|]. split; [exact H3|].
  apply H4. vm_compute. discriminate.
Defined.

(** X4. [HasMasterPassword] reports false while the store has no
    [master_hash] row and true once [SetMasterPassword] has succeeded,
    provided Argon2 returns as many bytes as it is asked for. *)
Theorem HasMasterPassword_before_and_after
        (IDKey : bytes -> bytes -> N -> N -> N -> N -> bytes)
        (a : main.App) (s : store.Store) (password : bytes) (rand : io.Reader) :
  (forall p s t m l n, len (IDKey p s t m l n) = n) ->
  main.store a = Some s ->
  store.failure s main.master_salt = None ->
  store.failure s main.master_hash = None ->
  (16 <= length rand)%nat ->
  (store.selectValue main.master_hash (store.app_config s) = None ->
   main.HasMasterPassword a = Returns (false, None))
  /\ exists a',
      main.SetMasterPassword IDKey a password rand
      = Returns (None, a', skipn 16 rand)
      /\ main.HasMasterPassword a' = Returns (true, None).
Proof.
  intros Hlen Hs Hf1 Hf2 Hr. split.
  - intros Hnone. unfold main.HasMasterPassword. rewrite Hs.
    now rewrite (lifecycle.GetConfig_missing s _ Hf2 Hnone).
  - eexists.
    split; [apply (lifecycle.SetMasterPassword_ok IDKey a s password rand);
            assumption|].
    unfold main.HasMasterPassword. cbn [main.store].
    rewrite lifecycle.storeWithMaster_hash by assumption.
    destruct (list_eq_dec Byte.byte_eq_dec
                (crypto.HashPassword IDKey password (firstn 16 rand)) [])
      as [E|E]; [|reflexivity].
    unfold crypto.HashPassword in E.
    apply (proj1 (base64_facts.encode_nil_iff _)) in E.
    specialize (Hlen password (firstn 16 rand) crypto.argonTime
                     crypto.argonMem crypto.argonParts crypto.keyLen).
    rewrite E in Hlen. discriminate.
Qed.

Lemma HasMasterPassword_before_and_after_witness :
  main.HasMasterPassword freshApp = Returns (false, None)
  /\ exists a',
      main.SetMasterPassword paddedKey freshApp
        (list_byte_of_string "correct horse") saltEntropy
      = Returns (None, a', skipn 16 saltEntropy)
      /\ main.HasMasterPassword a' = Returns (true, None).
Proof.
  destruct (HasMasterPassword_before_and_after paddedKey freshApp emptyStore
              (list_byte_of_string "correct horse") saltEntropy
              paddedKey_length eq_refl eq_refl eq_refl
              ltac:(vm_compute; lia)) as [H1 H2].
  split; [apply H1; reflexivity | exact H2].
Defined.

(** X5. The two writes of [SetMasterPassword] are not atomic: when the salt
    is written and the write of the hash fails, the error is returned and
    no vault is kept, but the store already holds the new salt next to the
    hash it had before. *)
Theorem SetMasterPassword_hash_write_fails
        (IDKey : bytes -> bytes -> N -> N -> N -> N -> bytes)
        (a : main.App) (s : store.Store) (password : bytes) (rand : io.Reader)
        (e : error) :
  main.store a = Some s ->
  store.failure s main.master_salt = None ->
  store.failure s main.master_hash = Some e ->
  (16 <= length rand)%nat ->
  exists s',
    main.SetMasterPassword IDKey a password rand
    = Returns (Some e, {| main.store := Some s'; main.vault := main.vault a |},
               skipn 16 rand)
    /\ store.selectValue main.master_salt (store.app_config s')
       = Some (base64.EncodeToString (firstn 16 rand))
    /\ store.selectValue main.master_hash (store.app_config s')
       = store.selectValue main.master_hash (store.app_config s).
Proof.
  intros Hs Hf1 Hf2 Hr.
  exists {| store.app_config :=
              store.upsertValue main.master_salt
                (base64.EncodeToString (firstn 16 rand)) (store.app_config s);
            store.failure := store.failure s |}.
  split; [|split].
  - unfold main.SetMasterPassword.
    rewrite (lifecycle.GenerateSalt_enough rand Hr), Hs.
    rewrite (lifecycle.SetConfig_ok s _ _ Hf1).
    rewrite (lifecycle.SetConfig_fails _ _ _ e) by exact Hf2.
    reflexivity.
  - cbn [store.app_config]. apply lifecycle.selectValue_upsert_same.
  - cbn [store.app_config]. apply lifecycle.selectValue_upsert_other.
    intros E. symmetry in E. exact (lifecycle.salt_key_neq_hash_key E).
Qed.

Lemma SetMasterPassword_hash_write_fails_witness :
  exists s',
    main.SetMasterPassword paddedKey
      {| main.store := Some hashQueryFails; main.vault := None |}
      (list_byte_of_string "new password") saltEntropy
    = Returns (Some (sqlError "database is locked"),
               {| main.store := Some s'; main.vault := None |},
               skipn 16 saltEntropy)
    /\ store.selectValue main.master_salt (store.app_config s')
       = Some (base64.EncodeToString (firstn 16 saltEntropy))
    /\ store.selectValue main.master_hash (store.app_config s')
       = store.selectValue main.master_hash (store.app_config hashQueryFails).
Proof.
  exact (SetMasterPassword_hash_write_fails paddedKey
           {| main.store := Some hashQueryFails; main.vault := None |}
           hashQueryFails (list_byte_of_string "new password") saltEntropy
           (sqlError "database is locked") eq_refl eq_refl eq_refl
           ltac:(vm_compute; lia)).
Defined.

(** X6. With fewer than 16 bytes of entropy [SetMasterPassword] returns the
    read error before it touches the store: the application is unchanged,
    whether or not it has a store. *)
Theorem SetMasterPassword_no_entropy
        (IDKey : bytes -> bytes -> N -> N -> N -> N -> bytes)
        (a : main.App) (password : bytes) (rand : io.Reader) :
  (length rand < 16)%nat ->
  exists e,
    main.SetMasterPassword IDKey a password rand = Returns (Some e, a, [])
    /\ (e = EOF \/ e = ErrUnexpectedEOF).
Proof.
  intros Hr. unfold main.SetMasterPassword.
  rewrite (lifecycle.GenerateSalt_short rand Hr).
  eexists. split; [reflexivity|]. destruct rand; auto.
Qed.

Lemma SetMasterPassword_no_entropy_witness :
  exists e,
    main.SetMasterPassword paddedKey freshApp
      (list_byte_of_string "correct horse") sampleEntropy
    = Returns (Some e, freshApp, [])
    /\ (e = EOF \/ e = ErrUnexpectedEOF).
Proof.
  apply (SetMasterPassword_no_entropy paddedKey freshApp
           (list_byte_of_string "correct horse") sampleEntropy).
  vm_compute. lia.
Defined.

(** X7. On a store that has neither salt nor hash, [UnlockVault] refuses
    every password and leaves the application as it was, provided Argon2
    returns as many bytes as it is asked for. *)
Theorem UnlockVault_nothing_set
        (IDKey : bytes -> bytes -> N -> N -> N -> N -> bytes)
        (a : main.App) (s : store.Store) (password : bytes) :
  (forall p s t m l n, len (IDKey p s t m l n) = n) ->
  main.store a = Some s ->
  store.failure s main.master_salt = None ->
  store.failure s main.master_hash = None ->
  store.selectValue main.master_salt (store.app_config s) = None ->
  store.selectValue main.master_hash (store.app_config s) = None ->
  main.UnlockVault IDKey a password = Returns (false, None, a).
Proof.
  intros Hlen Hs Hf1 Hf2 Hn1 Hn2.
  rewrite (lifecycle.UnlockVault_read IDKey a s password [] [] [] Hs).
  - destruct (crypto.VerifyPassword IDKey password [] []) eqn:Hv;
      [|reflexivity].
    apply lifecycle.VerifyPassword_true_iff in Hv.
    assert (E : derive IDKey password [] = []).
    { change (base64.DecodeString []) with (@nil byte, @None error) in Hv.
      congruence. }
    specialize (Hlen password [] crypto.argonTime crypto.argonMem
                     crypto.argonParts crypto.keyLen).
    unfold derive in E. rewrite E in Hlen. discriminate.
  - now apply lifecycle.GetConfig_missing.
  - reflexivity.
  - now apply lifecycle.GetConfig_missing.
Qed.

Lemma UnlockVault_nothing_set_witness :
  main.UnlockVault paddedKey freshApp (list_byte_of_string "correct horse")
  = Returns (false, None, freshApp).
Proof.
  apply (UnlockVault_nothing_set paddedKey freshApp emptyStore);
    solve [reflexivity | apply paddedKey_length].
Defined.

(** X8. [VerifyPassword] returns true exactly for the stored strings that
    base64-decode, without error, to the key derived from the password and
    the salt. *)
Theorem VerifyPassword_accepts_exactly
        (IDKey : bytes -> bytes -> N -> N -> N -> N -> bytes)
        (password salt storedHash : bytes) :
  crypto.VerifyPassword IDKey password salt storedHash = true
  <-> base64.DecodeString storedHash = (derive IDKey password salt, None).
Proof. apply lifecycle.VerifyPassword_true_iff. Qed.

Module blob_facts.

Lemma EncodeToString_length_aux (n : nat) :
  forall src, (length src <= n)%nat ->
              length (base64.EncodeToString src)
              = (4 * Nat.div (length src + 2) 3)%nat.
Proof.
  induction n as [|n IH]; intros src Hn.
  - destruct src; [reflexivity | simpl in Hn; lia].
  - destruct src as [|a [|b [|c rest]]]; try reflexivity.
    cbn [base64.EncodeToString length].
    rewrite IH by (simpl in Hn; lia).
    replace (S (S (S (length rest))) + 2)%nat
      with (1 * 3 + (length rest + 2))%nat by lia.
    rewrite Nat.div_add_l by discriminate. lia.
Qed.

(** The encoding has four characters for every three bytes, rounded up. *)
Lemma EncodeToString_length (src : bytes) :
  length (base64.EncodeToString src) = (4 * Nat.div (length src + 2) 3)%nat.
Proof. apply (EncodeToString_length_aux (length src)). lia. Qed.

Lemma EncodeToString_inj (x y : bytes) :
  base64.EncodeToString x = base64.EncodeToString y -> x = y.
Proof.
  intros H.
  pose proof (base64_facts.DecodeString_EncodeToString x) as Hx.
  pose proof (base64_facts.DecodeString_EncodeToString y) as Hy.
  rewrite H in Hx. congruence.
Qed.

(** [Decrypt] returns on every input; an error comes with the empty
    string. *)
Lemma Decrypt_returns (v : crypto.Vault) (encoded : bytes) :
  exists plaintext err,
    crypto.Decrypt v encoded = Returns (plaintext, err)
    /\ (err <> None -> plaintext = []).
Proof.
  unfold crypto.Decrypt.
  destruct (len encoded =? 0).
  { exists [], None. split; [reflexivity | intros H; now elim H]. }
  destruct (base64.DecodeString encoded) as [data [e|]].
  { exists [], (Some e). split; reflexivity. }
  destruct (aes.NewCipher (crypto.key v)) as [block|e] eqn:Hb.
  2:{ exists [], (Some e). split; reflexivity. }
  rewrite cipher_facts.NewGCM_Ok. fold (aead block).
  change (cipher.NonceSize (aead block)) with 12.
  change (N.to_nat 12) with 12%nat.
  destruct (len data <? 12) eqn:El.
  { exists [], (Some crypto.errTooShort). split; reflexivity. }
  apply N.ltb_ge in El. unfold len in El.
  destruct (cipher_facts.Open_returns (aead block) []
              (firstn 12 data) (skipn 12 data)) as (r & Hr & _).
  - eauto using vault.aead_standard.
  - rewrite length_firstn. lia.
  - rewrite Hr. cbn [bind]. destruct r as [pt [e|]].
    + exists [], (Some crypto.errDecryptionFailed). split; reflexivity.
    + exists pt, None. split; [reflexivity | intros H; now elim H].
Qed.

End blob_facts.

(** X9. [Decrypt] never panics: for every vault, whatever its key, and
    every input string it returns, and whenever it returns an error the
    string it returns is empty. *)
Theorem Decrypt_never_panics (v : crypto.Vault) (encoded : bytes) :
  exists plaintext err,
    crypto.Decrypt v encoded = Returns (plaintext, err)
    /\ (err <> None -> plaintext = []).
Proof. apply blob_facts.Decrypt_returns. Qed.

(** X10. When the entropy source cannot deliver the 12 bytes of a nonce,
    [Encrypt] on a non-empty plaintext returns the empty string and the read
    error: nothing is encrypted under a short nonce. *)
Theorem Encrypt_no_entropy (v : crypto.Vault) (s : bytes) (rand : io.Reader) :
  len (crypto.key v) = crypto.keyLen ->
  s <> [] ->
  (length rand < 12)%nat ->
  exists e,
    crypto.Encrypt v s rand = Returns ([], Some e, [])
    /\ (e = EOF \/ e = ErrUnexpectedEOF).
Proof.
  intros Hk Hne Hr. destruct (vault.key32_block v Hk) as [block Hb].
  rewrite (vault.Encrypt_unfold v s rand block Hne Hb).
  apply Nat.leb_gt in Hr. rewrite Hr.
  eexists. split; [reflexivity|]. destruct rand; auto.
Qed.

Lemma Encrypt_no_entropy_witness :
  exists e,
    crypto.Encrypt sampleVault sampleSecret (hex "0102030405")
    = Returns ([], Some e, [])
    /\ (e = EOF \/ e = ErrUnexpectedEOF).
Proof.
  apply (Encrypt_no_entropy sampleVault sampleSecret (hex "0102030405")).
  - reflexivity.
  - discriminate.
  - vm_compute. lia.
Defined.

(** X11. The blob of a successful [Encrypt] on a non-empty plaintext of n
    bytes has 4 * ceil((n + 28) / 3) characters; it is longer than the
    plaintext, so it is never the plaintext itself. *)
Theorem Encrypt_blob_size (v : crypto.Vault) (s : bytes)
        (rand rand' : io.Reader) (blob : bytes) :
  s <> [] ->
  crypto.Encrypt v s rand = Returns (blob, None, rand') ->
  length blob = (4 * Nat.div (length s + 30) 3)%nat
  /\ (length s < length blob)%nat
  /\ blob <> s.
Proof.
  intros Hne H.
  destruct (vault.Encrypt_success v s rand rand' blob Hne H)
    as (block & nonce & Hb & _ & Hn & _ & -> & _).
  assert (Hl : length (base64.EncodeToString (blobBytes block nonce s))
               = (4 * Nat.div (length s + 30) 3)%nat).
  { rewrite blob_facts.EncodeToString_length.
    rewrite (vault.blobBytes_length _ _ _ _ Hb), Hn.
    do 2 f_equal. lia. }
  assert (Hlt : (length s
                 < length (base64.EncodeToString (blobBytes block nonce s)))%nat).
  { rewrite Hl.
    pose proof (Nat.div_mod_eq (length s + 30) 3) as E.
    pose proof (Nat.mod_upper_bound (length s + 30) 3) as B.
    lia. }
  split; [exact Hl|]. split; [exact Hlt|].
  intros E. rewrite E in Hlt. lia.
Qed.

Lemma Encrypt_blob_size_witness :
  exists blob,
    crypto.Encrypt sampleVault sampleSecret sampleEntropy
    = Returns (blob, None, [])
    /\ length blob = 56%nat /\ blob <> sampleSecret.
Proof.
  eexists. split; [vm_compute; reflexivity|].
  destruct (Encrypt_blob_size sampleVault sampleSecret sampleEntropy []
              _ ltac:(discriminate) ltac:(vm_compute; reflexivity))
    as (H1 & _ & H3).
  split; [exact H1 | exact H3].
Defined.

(** X12. The first 12 bytes a stored blob decodes to are the 12 bytes
    [Encrypt] drew from the entropy source, so two encryptions of the same
    plaintext under the same vault that drew different nonces give
    different blobs. *)
Theorem Encrypt_nonce_and_distinct_blobs (v : crypto.Vault) (s : bytes)
        (rand1 rand1' rand2 rand2' : io.Reader) (blob1 blob2 : bytes) :
  s <> [] ->
  crypto.Encrypt v s rand1 = Returns (blob1, None, rand1') ->
  crypto.Encrypt v s rand2 = Returns (blob2, None, rand2') ->
  firstn 12 (fst (base64.DecodeString blob1)) = firstn 12 rand1
  /\ (firstn 12 rand1 <> firstn 12 rand2 -> blob1 <> blob2).
Proof.
  intros Hne H1 H2.
  destruct (vault.Encrypt_success v s rand1 rand1' blob1 Hne H1)
    as (block & nonce1 & Hb & Hn1 & Hl1 & _ & -> & _).
  destruct (vault.Encrypt_success v s rand2 rand2' blob2 Hne H2)
    as (block' & nonce2 & Hb' & Hn2 & Hl2 & _ & -> & _).
  assert (block' = block) by congruence. subst block'.
  rewrite base64_facts.DecodeString_EncodeToString. cbn [fst].
  assert (P1 : firstn 12 (blobBytes block nonce1 s) = nonce1)
    by (unfold blobBytes; now apply firstn_app_exact).
  assert (P2 : firstn 12 (blobBytes block nonce2 s) = nonce2)
    by (unfold blobBytes; now apply firstn_app_exact).
  split; [congruence|].
  intros Hd E. apply blob_facts.EncodeToString_inj in E.
  apply Hd. congruence.
Qed.

Lemma Encrypt_nonce_and_distinct_blobs_witness :
  exists blob1 blob2,
    crypto.Encrypt sampleVault sampleSecret sampleEntropy
    = Returns (blob1, None, [])
    /\ crypto.Encrypt sampleVault sampleSecret saltEntropy
       = Returns (blob2, None, skipn 12 saltEntropy)
    /\ blob1 <> blob2.
Proof.
  eexists. eexists.
  split; [vm_compute; reflexivity|]. split; [vm_compute; reflexivity|].
  refine (proj2 (Encrypt_nonce_and_distinct_blobs sampleVault sampleSecret
                   sampleEntropy [] saltEntropy (skipn 12 saltEntropy) _ _
                   ltac:(discriminate) ltac:(vm_compute; reflexivity)
                   ltac:(vm_compute; reflexivity)) _).
  vm_compute. discriminate.
Defined.

(** * Saved connection profiles *)

Module connection_facts.

Lemma insertRow_In (r x : store.connectionRow) (l : list store.connectionRow) :
  In x (store.insertRow r l) <-> x = r \/ In x l.
Proof.
  induction l as [|y l IH]; cbn [store.insertRow].
  - simpl. intuition.
  - destruct (store.rowLtb y r); simpl; [rewrite IH|]; intuition.
Qed.

Lemma orderRows_In (x : store.connectionRow) (l : list store.connectionRow) :
  In x (store.orderRows l) <-> In x l.
Proof.
  unfold store.orderRows. induction l as [|y l IH]; cbn [fold_right].
  - reflexivity.
  - rewrite insertRow_In, IH. simpl. intuition.
Qed.



(** The row of the new key after an upsert: the new values, with the
    creation time of the row it replaced, if any. *)
Lemma upsertRow_new (new : store.connectionRow)
      (rows : list store.connectionRow) :
  exists old,
    In (store.updateRow old new) (store.upsertRow new rows)
    /\ store.id old = store.id new
    /\ (old = new \/ In old rows).
Proof.
  induction rows as [|r rows IH]; cbn [store.upsertRow].
  - exists new. split; [|auto]. left. now destruct new.
  - destruct (list_eq_dec Byte.byte_eq_dec (store.id r) (store.id new))
      as [E|E].
    + exists r. simpl. auto.
    + destruct IH as (old & H1 & H2 & H3). exists old. simpl.
      intuition.
Qed.

Lemma upsertRow_others (new r : store.connectionRow)
      (rows : list store.connectionRow) :
  store.id r <> store.id new ->
  (In r (store.upsertRow new rows) <-> In r rows).
Proof.
  intros Hne. induction rows as [|r0 rows IH]; cbn [store.upsertRow].
  - simpl. split; [intros [H|[]]; subst; now elim Hne | intros []].
  - destruct (list_eq_dec Byte.byte_eq_dec (store.id r0) (store.id new))
      as [E|E]; simpl.
    + split; intros [H|H]; auto.
      * subst r. now elim Hne.
      * subst r. now elim Hne.
    + rewrite IH. reflexivity.
Qed.

Lemma decryptField_returns (v : option crypto.Vault) (pwd : bytes) :
  exists pwd',
    main.decryptField v pwd = Returns pwd'
    /\ (pwd' = pwd
        \/ exists v0, v = Some v0
                      /\ crypto.Decrypt v0 pwd = Returns (pwd', None)).
Proof.
  destruct v as [v0|]; cbn [main.decryptField].
  - destruct (blob_facts.Decrypt_returns v0 pwd) as (pt & err & H & _).
    rewrite H. cbn [bind snd fst]. destruct err.
    + exists pwd. auto.
    + exists pt. split; [reflexivity|]. right. eauto.
  - exists pwd. auto.
Qed.

Lemma decryptField_decrypts (v : crypto.Vault) (enc pwd : bytes) :
  crypto.Decrypt v enc = Returns (pwd, None) ->
  main.decryptField (Some v) enc = Returns pwd.
Proof. intros H. cbn [main.decryptField]. now rewrite H. Qed.

Lemma encryptField_locked (pwd : bytes) (rand : io.Reader) :
  main.encryptField None pwd rand = Returns (pwd, rand).
Proof. reflexivity. Qed.

(** With a usable key and a nonce at hand a field is replaced by a blob
    that decrypts to it; the empty field stays empty. *)
Lemma encryptField_encrypts (v : crypto.Vault) (pwd : bytes) (rand : io.Reader) :
  len (crypto.key v) = crypto.keyLen ->
  (12 <= length rand)%nat -> len pwd <= 68719476704 ->
  exists enc rand',
    main.encryptField (Some v) pwd rand = Returns (enc, rand')
    /\ crypto.Decrypt v enc = Returns (pwd, None)
    /\ (length rand - 12 <= length rand')%nat
    /\ (pwd <> [] -> enc <> pwd).
Proof.
  intros Hk Hr Hmax. cbn [main.encryptField].
  destruct pwd as [|c pwd'] eqn:Ep.
  - exists [], rand. repeat split; auto. lia.
  - rewrite <- Ep in *.
    assert (Hne : pwd <> []) by (subst; discriminate).
    destruct (vault.key32_block v Hk) as [block Hb].
    rewrite (vault.Encrypt_unfold v pwd rand block Hne Hb).
    apply Nat.leb_le in Hr. rewrite Hr. apply Nat.leb_le in Hr.
    apply N.ltb_ge in Hmax. rewrite Hmax. apply N.ltb_ge in Hmax.
    cbn [bind].
    exists (base64.EncodeToString (blobBytes block (firstn 12 rand) pwd)),
      (skipn 12 rand).
    split; [reflexivity|]. split; [|split].
    + apply vault.Decrypt_blob; auto. rewrite length_firstn. lia.
    + rewrite length_skipn. lia.
    + intros _ E. apply (f_equal (@length _)) in E.
      rewrite blob_facts.EncodeToString_length in E.
      rewrite (vault.blobBytes_length _ _ _ _ Hb) in E.
      rewrite length_firstn in E.
      pose proof (Nat.div_mod_eq
                    (Nat.min 12 (length rand) + length pwd + 16 + 2) 3) as D.
      pose proof (Nat.mod_upper_bound
                    (Nat.min 12 (length rand) + length pwd + 16 + 2) 3) as B.
      lia.
Qed.

(** Without a nonce a non-empty field is kept as it is, silently. *)
Lemma encryptField_no_entropy (v : crypto.Vault) (pwd : bytes) (rand : io.Reader) :
  len (crypto.key v) = crypto.keyLen ->
  (length rand < 12)%nat ->
  exists rand',
    main.encryptField (Some v) pwd rand = Returns (pwd, rand')
    /\ (length rand' < 12)%nat.
Proof.
  intros Hk Hr. cbn [main.encryptField].
  destruct pwd as [|c pwd'] eqn:Ep.
  - exists rand. split; [reflexivity | exact Hr].
  - rewrite <- Ep in *.
    assert (Hne : pwd <> []) by (subst; discriminate).
    destruct (vault.key32_block v Hk) as [block Hb].
    rewrite (vault.Encrypt_unfold v pwd rand block Hne Hb).
    apply Nat.leb_gt in Hr. rewrite Hr. cbn [bind].
    exists []. split; [reflexivity | simpl; lia].
Qed.

Lemma revealProfile_returns (v : option crypto.Vault)
      (c : store.ConnectionProfile) :
  exists pwd sshPwd,
    main.revealProfile v c = Returns (profileWith c pwd sshPwd)
    /\ shows v (store.Password c) pwd
    /\ shows v (store.SSHPass c) sshPwd.
Proof.
  unfold main.revealProfile.
  destruct (decryptField_returns v (store.Password c)) as (pwd & H1 & R1).
  destruct (decryptField_returns v (store.SSHPass c)) as (ssh & H2 & R2).
  exists pwd, ssh. rewrite H1. cbn [bind]. rewrite H2. cbn [bind].
  split; [reflexivity|]. split; assumption.
Qed.

Lemma revealProfile_decrypts (v : crypto.Vault) (c : store.ConnectionProfile)
      (pwd sshPwd : bytes) :
  crypto.Decrypt v (store.Password c) = Returns (pwd, None) ->
  crypto.Decrypt v (store.SSHPass c) = Returns (sshPwd, None) ->
  main.revealProfile (Some v) c = Returns (profileWith c pwd sshPwd).
Proof.
  intros H1 H2. unfold main.revealProfile.
  rewrite (decryptField_decrypts v _ _ H1). cbn [bind].
  rewrite (decryptField_decrypts v _ _ H2). reflexivity.
Qed.

Lemma revealAll_returns (v : option crypto.Vault)
      (conns : list store.ConnectionProfile) :
  exists ps,
    main.revealAll v conns = Returns ps
    /\ Forall2 (fun c p => main.revealProfile v c = Returns p) conns ps.
Proof.
  induction conns as [|c conns IH]; cbn [main.revealAll].
  - exists []. split; [reflexivity | constructor].
  - destruct (revealProfile_returns v c) as (pwd & ssh & Hp & _).
    destruct IH as (ps & Hps & HF).
    exists (profileWith c pwd ssh :: ps).
    rewrite Hp. cbn [bind]. rewrite Hps. cbn [bind].
    split; [reflexivity|]. now constructor.
Qed.

Lemma Forall2_In_l {A B} (R : A -> B -> Prop) (l : list A) (l' : list B) (x : A) :
  Forall2 R l l' -> In x l -> exists y, In y l' /\ R x y.
Proof.
  induction 1 as [|a b l l' Hab HF IH]; intros Hin; [contradiction|].
  destruct Hin as [->|Hin].
  - exists b. simpl. auto.
  - destruct (IH Hin) as (y & Hy & HR). exists y. simpl. auto.
Qed.

Lemma Forall2_In_r {A B} (R : A -> B -> Prop) (l : list A) (l' : list B) (y : B) :
  Forall2 R l l' -> In y l' -> exists x, In x l /\ R x y.
Proof.
  induction 1 as [|a b l l' Hab HF IH]; intros Hin; [contradiction|].
  destruct Hin as [->|Hin].
  - exists a. simpl. auto.
  - destruct (IH Hin) as (x & Hx & HR). exists x. simpl. auto.
Qed.

(** Projections of the three record types applied to record values. *)
Ltac fields :=
  cbn [store.ID store.Name store.Host store.Port store.Username
       store.Password store.DefaultDB store.UseSSL store.SSHEnabled
       store.SSHHost store.SSHPort store.SSHUser store.SSHAuth
       store.SSHKeyPath store.SSHPass store.SortOrder store.CreatedAt
       store.UpdatedAt
       store.id store.name store.host store.port store.username
       store.password store.default_db store.use_ssl store.ssh_enabled
       store.ssh_host store.ssh_port store.ssh_user store.ssh_auth
       store.ssh_key_path store.ssh_password store.sort_order
       store.created_at store.updated_at
       main.ID main.Name main.Host main.Port main.Username main.Password
       main.DefaultDB main.UseSSL main.SSHEnabled main.SSHHost main.SSHPort
       main.SSHUser main.SSHAuth main.SSHKeyPath main.SSHPass main.SortOrder
       store.connections store.connectionsFailure] in *.

(** The profile [App.SaveConnection] hands to the store, given the two
    secrets as they are to be stored. *)
Lemma SaveConnection_stores (a : main.App) (s : store.Store)
      (t : store.Connections) (cp : main.ConnectionProfile)
      (rand rand2 : io.Reader) (now newID pwd sshPwd : bytes) :
  main.store a = Some s ->
  store.connectionsFailure t = None ->
  (exists rand1,
      main.encryptField (main.vault a) (main.Password cp) rand
      = Returns (pwd, rand1)
      /\ main.encryptField (main.vault a) (main.SSHPass cp) rand1
         = Returns (sshPwd, rand2)) ->
  exists new,
    main.SaveConnection a t cp rand now newID
    = Returns (savedKey cp newID, None,
               {| store.connections :=
                    store.upsertRow new (store.connections t);
                  store.connectionsFailure := None |}, rand2)
    /\ store.id new = savedKey cp newID
    /\ store.password new = pwd
    /\ store.ssh_password new = sshPwd
    /\ store.updated_at new = now
    /\ forall old p q,
        store.id old = store.id new ->
        profileWith (store.scanRow (store.updateRow old new)) p q
        = withID {| main.ID := main.ID cp; main.Name := main.Name cp;
                    main.Host := main.Host cp; main.Port := main.Port cp;
                    main.Username := main.Username cp; main.Password := p;
                    main.DefaultDB := main.DefaultDB cp;
                    main.UseSSL := main.UseSSL cp;
                    main.SSHEnabled := main.SSHEnabled cp;
                    main.SSHHost := main.SSHHost cp;
                    main.SSHPort := main.SSHPort cp;
                    main.SSHUser := main.SSHUser cp;
                    main.SSHAuth := main.SSHAuth cp;
                    main.SSHKeyPath := main.SSHKeyPath cp;
                    main.SSHPass := q;
                    main.SortOrder := main.SortOrder cp |}
                 (savedKey cp newID).
Proof.
  intros Hs Hf (rand1 & E1 & E2).
  unfold main.SaveConnection. rewrite E1. cbn [bind]. rewrite E2.
  cbn [bind]. rewrite Hs.
  unfold store.SaveConnection. cbv zeta. rewrite Hf. fields.
  unfold savedKey.
  destruct (list_eq_dec Byte.byte_eq_dec (main.ID cp) []) as [E|E]; fields.
  - eexists. split; [reflexivity|]. unfold store.rowOf. fields.
    repeat split.
    intros old p q Hid. unfold profileWith, withID, store.scanRow,
                          store.updateRow. fields.
    rewrite Hid. destruct (main.UseSSL cp), (main.SSHEnabled cp); reflexivity.
  - eexists. split; [reflexivity|]. unfold store.rowOf. fields.
    repeat split.
    intros old p q Hid. unfold profileWith, withID, store.scanRow,
                          store.updateRow. fields.
    rewrite Hid. destruct (main.UseSSL cp), (main.SSHEnabled cp); reflexivity.
Qed.

(** Listing a table: every row gives one profile, in query order. *)
Lemma ListConnections_returns (a : main.App) (s : store.Store)
      (t : store.Connections) :
  main.store a = Some s ->
  store.connectionsFailure t = None ->
  exists ps,
    main.ListConnections a t = Returns (ps, None)
    /\ Forall2 (fun c p => main.revealProfile (main.vault a) c = Returns p)
               (map store.scanRow (store.orderRows (store.connections t))) ps.
Proof.
  intros Hs Hf. unfold main.ListConnections, store.ListConnections.
  rewrite Hs, Hf.
  destruct (revealAll_returns (main.vault a)
              (map store.scanRow (store.orderRows (store.connections t))))
    as (ps & Hps & HF).
  exists ps. rewrite Hps. split; [reflexivity | exact HF].
Qed.

Lemma upsertRow_fresh (new : store.connectionRow)
      (rows : list store.connectionRow) :
  (forall r, In r rows -> store.id r <> store.id new) ->
  store.upsertRow new rows = (rows ++ [new])%list.
Proof.
  induction rows as [|r rows IH]; intros H; cbn [store.upsertRow app].
  - reflexivity.
  - destruct (list_eq_dec Byte.byte_eq_dec (store.id r) (store.id new))
      as [E|E].
    + exfalso. apply (H r); simpl; auto.
    + f_equal. apply IH. intros r' Hr'. apply H. simpl. auto.
Qed.

Lemma upsertRow_existing (new old : store.connectionRow)
      (rows : list store.connectionRow) :
  NoDup (map store.id rows) -> In old rows -> store.id old = store.id new ->
  In (store.updateRow old new) (store.upsertRow new rows)
  /\ length (store.upsertRow new rows) = length rows
  /\ map store.id (store.upsertRow new rows) = map store.id rows.
Proof.
  induction rows as [|r rows IH]; intros Hnd Hin Hid; [contradiction|].
  cbn [store.upsertRow].
  simpl in Hnd. inversion Hnd as [|? ? Hnotin Hnd']; subst.
  destruct (list_eq_dec Byte.byte_eq_dec (store.id r) (store.id new))
    as [E|E].
  - destruct Hin as [->|Hin].
    + simpl. auto.
    + exfalso. apply Hnotin. rewrite E, <- Hid. now apply in_map.
  - destruct Hin as [->|Hin]; [congruence|].
    destruct (IH Hnd' Hin Hid) as (H1 & H2 & H3).
    simpl. rewrite H2, H3. auto.
Qed.

Lemma upsertRow_NoDup (new : store.connectionRow)
      (rows : list store.connectionRow) :
  NoDup (map store.id rows) ->
  NoDup (map store.id (store.upsertRow new rows)).
Proof.
  induction rows as [|r rows IH]; intros Hnd; cbn [store.upsertRow].
  - simpl. constructor; [intros [] | constructor].
  - simpl in Hnd. inversion Hnd as [|? ? Hnotin Hnd']; subst.
    destruct (list_eq_dec Byte.byte_eq_dec (store.id r) (store.id new))
      as [E|E].
    + simpl. now constructor.
    + simpl. constructor; [|now apply IH].
      intros Hin. apply in_map_iff in Hin as (r' & Hr' & Hin').
      destruct (list_eq_dec Byte.byte_eq_dec (store.id r') (store.id new))
        as [E'|E'].
      * congruence.
      * apply upsertRow_others in Hin'; [|exact E'].
        apply Hnotin. rewrite <- Hr'. now apply in_map.
Qed.





End connection_facts.

(** X13. On an unlocked application with a 32-byte key, when the table can
    be written and the entropy source holds two nonces, [SaveConnection]
    files the profile under its own ID, or under the fresh one when it has
    none, and a following [ListConnections] shows that profile with both
    secrets and every other field as they were given. *)
Theorem SaveConnection_then_ListConnections
        (a : main.App) (s : store.Store) (v : crypto.Vault)
        (t : store.Connections) (cp : main.ConnectionProfile)
        (rand : io.Reader) (now newID : bytes) :
  main.store a = Some s ->
  main.vault a = Some v ->
  len (crypto.key v) = crypto.keyLen ->
  store.connectionsFailure t = None ->
  (24 <= length rand)%nat ->
  len (main.Password cp) <= 68719476704 ->
  len (main.SSHPass cp) <= 68719476704 ->
  exists t' rand',
    main.SaveConnection a t cp rand now newID
    = Returns (savedKey cp newID, None, t', rand')
    /\ exists ps,
        main.ListConnections a t' = Returns (ps, None)
        /\ In (withID cp (savedKey cp newID)) ps.
Proof.
  intros Hs Hv Hk Hf Hr Hm1 Hm2.
  destruct (connection_facts.encryptField_encrypts v (main.Password cp) rand
              Hk ltac:(lia) Hm1) as (enc1 & rand1 & E1 & D1 & L1 & _).
  destruct (connection_facts.encryptField_encrypts v (main.SSHPass cp) rand1
              Hk ltac:(lia) Hm2) as (enc2 & rand2 & E2 & D2 & _ & _).
  destruct (connection_facts.SaveConnection_stores a s t cp rand rand2 now
              newID enc1 enc2 Hs Hf) as (new & Hsave & Hid & Hp & Hq & _ & Hprof).
  { rewrite Hv. eauto. }
  eexists. exists rand2. split; [exact Hsave|].
  destruct (connection_facts.ListConnections_returns a s
              {| store.connections :=
                   store.upsertRow new (store.connections t);
                 store.connectionsFailure := None |} Hs eq_refl)
    as (ps & Hlist & HF).
  exists ps. split; [exact Hlist|].
  destruct (connection_facts.upsertRow_new new (store.connections t))
    as (old & Hin & Hold & _).
  destruct (connection_facts.Forall2_In_l _ _ _
              (store.scanRow (store.updateRow old new)) HF)
    as (p & Hpin & HR).
  { apply in_map. apply connection_facts.orderRows_In. exact Hin. }
  cbn beta in HR. rewrite Hv in HR.
  rewrite (connection_facts.revealProfile_decrypts v _ (main.Password cp)
             (main.SSHPass cp)) in HR.
  - rewrite (Hprof old _ _ Hold) in HR.
    assert (Ep : p = withID cp (savedKey cp newID)).
    { injection HR as <-. unfold withID. reflexivity. }
    now rewrite <- Ep.
  - unfold store.scanRow, store.updateRow. connection_facts.fields.
    now rewrite Hp.
  - unfold store.scanRow, store.updateRow. connection_facts.fields.
    now rewrite Hq.
Qed.

Lemma SaveConnection_then_ListConnections_witness :
  exists t' rand',
    main.SaveConnection unlockedApp sampleTable sampleProfile twoNonces
                        sampleNow sampleUUID
    = Returns (sampleUUID, None, t', rand')
    /\ exists ps,
        main.ListConnections unlockedApp t' = Returns (ps, None)
        /\ In (withID sampleProfile sampleUUID) ps.
Proof.
  apply (SaveConnection_then_ListConnections unlockedApp sampleStore
           sampleVault sampleTable sampleProfile twoNonces sampleNow
           sampleUUID);
    solve [reflexivity | vm_compute; lia | vm_compute; discriminate].
Defined.



(** X15. On an unlocked application with a 32-byte key and two nonces at
    hand, the row [SaveConnection] writes holds, for each secret, a blob
    that decrypts to it under the vault; a non-empty secret is never stored
    as it was given. *)
Theorem SaveConnection_unlocked_stores_blobs
        (a : main.App) (s : store.Store) (v : crypto.Vault)
        (t : store.Connections) (cp : main.ConnectionProfile)
        (rand : io.Reader) (now newID : bytes) :
  main.store a = Some s ->
  main.vault a = Some v ->
  len (crypto.key v) = crypto.keyLen ->
  store.connectionsFailure t = None ->
  (24 <= length rand)%nat ->
  len (main.Password cp) <= 68719476704 ->
  len (main.SSHPass cp) <= 68719476704 ->
  exists t' rand' row,
    main.SaveConnection a t cp rand now newID
    = Returns (savedKey cp newID, None, t', rand')
    /\ In row (store.connections t')
    /\ store.id row = savedKey cp newID
    /\ crypto.Decrypt v (store.password row)
       = Returns (main.Password cp, None)
    /\ crypto.Decrypt v (store.ssh_password row)
       = Returns (main.SSHPass cp, None)
    /\ (main.Password cp <> [] -> store.password row <> main.Password cp)
    /\ (main.SSHPass cp <> [] -> store.ssh_password row <> main.SSHPass cp).
Proof.
  intros Hs Hv Hk Hf Hr Hm1 Hm2.
  destruct (connection_facts.encryptField_encrypts v (main.Password cp) rand
              Hk ltac:(lia) Hm1) as (enc1 & rand1 & E1 & D1 & L1 & N1).
  destruct (connection_facts.encryptField_encrypts v (main.SSHPass cp) rand1
              Hk ltac:(lia) Hm2) as (enc2 & rand2 & E2 & D2 & _ & N2).
  destruct (connection_facts.SaveConnection_stores a s t cp rand rand2 now
              newID enc1 enc2 Hs Hf) as (new & Hsave & Hid & Hp & Hq & _).
  { rewrite Hv. eauto. }
  destruct (connection_facts.upsertRow_new new (store.connections t))
    as (old & Hin & Hold & _).
  eexists. exists rand2, (store.updateRow old new).
  split; [exact Hsave|]. split; [exact Hin|].
  unfold store.updateRow. connection_facts.fields.
  rewrite Hp, Hq. repeat split; auto. congruence.
Qed.

Lemma SaveConnection_unlocked_stores_blobs_witness :
  exists t' rand' row,
    main.SaveConnection unlockedApp sampleTable sampleProfile twoNonces
                        sampleNow sampleUUID
    = Returns (sampleUUID, None, t', rand')
    /\ In row (store.connections t')
    /\ store.id row = sampleUUID
    /\ crypto.Decrypt sampleVault (store.password row)
       = Returns (main.Password sampleProfile, None)
    /\ store.password row <> main.Password sampleProfile.
Proof.
  destruct (SaveConnection_unlocked_stores_blobs unlockedApp sampleStore
              sampleVault sampleTable sampleProfile twoNonces sampleNow
              sampleUUID eq_refl eq_refl eq_refl eq_refl
              ltac:(vm_compute; lia) ltac:(vm_compute; discriminate)
              ltac:(vm_compute; discriminate))
    as (t' & rand' & row & H1 & H2 & H3 & H4 & _ & H6 & _).
  exists t', rand', row. repeat split; auto. apply H6. discriminate.
Defined.

(** X16. On an unlocked application whose entropy source cannot deliver a
    nonce, [SaveConnection] reports no error and stores both secrets as
    given, in plaintext. *)
Theorem SaveConnection_no_entropy_stores_plaintext
        (a : main.App) (s : store.Store) (v : crypto.Vault)
        (t : store.Connections) (cp : main.ConnectionProfile)
        (rand : io.Reader) (now newID : bytes) :
  main.store a = Some s ->
  main.vault a = Some v ->
  len (crypto.key v) = crypto.keyLen ->
  store.connectionsFailure t = None ->
  (length rand < 12)%nat ->
  exists t' rand' row,
    main.SaveConnection a t cp rand now newID
    = Returns (savedKey cp newID, None, t', rand')
    /\ In row (store.connections t')
    /\ store.id row = savedKey cp newID
    /\ store.password row = main.Password cp
    /\ store.ssh_password row = main.SSHPass cp.
Proof.
  intros Hs Hv Hk Hf Hr.
  destruct (connection_facts.encryptField_no_entropy v (main.Password cp)
              rand Hk Hr) as (rand1 & E1 & L1).
  destruct (connection_facts.encryptField_no_entropy v (main.SSHPass cp)
              rand1 Hk L1) as (rand2 & E2 & _).
  destruct (connection_facts.SaveConnection_stores a s t cp rand rand2 now
              newID (main.Password cp) (main.SSHPass cp) Hs Hf)
    as (new & Hsave & Hid & Hp & Hq & _).
  { rewrite Hv. eauto. }
  destruct (connection_facts.upsertRow_new new (store.connections t))
    as (old & Hin & Hold & _).
  eexists. exists rand2, (store.updateRow old new).
  split; [exact Hsave|]. split; [exact Hin|].
  unfold store.updateRow. connection_facts.fields.
  repeat split; congruence.
Qed.

Lemma SaveConnection_no_entropy_stores_plaintext_witness :
  exists t' rand' row,
    main.SaveConnection unlockedApp sampleTable sampleProfile
                        (hex "0102030405") sampleNow sampleUUID
    = Returns (sampleUUID, None, t', rand')
    /\ In row (store.connections t')
    /\ store.id row = sampleUUID
    /\ store.password row = main.Password sampleProfile
    /\ store.ssh_password row = main.SSHPass sampleProfile.
Proof.
  apply (SaveConnection_no_entropy_stores_plaintext unlockedApp sampleStore
           sampleVault sampleTable sampleProfile (hex "0102030405")
           sampleNow sampleUUID);
    solve [reflexivity | vm_compute; lia].
Defined.



(** X18. [store.SaveConnection], when the statement runs on a table whose
    ids are unique, keeps them unique.  If a row has the profile's ID, that
    row takes every new value but keeps its id and creation time, and the
    number of rows stays the same; if no row has it, the profile is added
    as a new row.  Rows under other ids are untouched. *)
Theorem store_SaveConnection_upsert
        (t : store.Connections) (c : store.ConnectionProfile)
        (now newID : bytes) :
  store.connectionsFailure t = None ->
  NoDup (map store.id (store.connections t)) ->
  exists c' t',
    store.SaveConnection t c now newID = (c', None, t')
    /\ store.ID c'
       = (if list_eq_dec Byte.byte_eq_dec (store.ID c) [] then newID
          else store.ID c)
    /\ store.UpdatedAt c' = now
    /\ NoDup (map store.id (store.connections t'))
    /\ (forall old,
          In old (store.connections t) -> store.id old = store.ID c' ->
          In (store.updateRow old (store.rowOf c')) (store.connections t')
          /\ store.created_at (store.updateRow old (store.rowOf c'))
             = store.created_at old
          /\ length (store.connections t') = length (store.connections t))
    /\ ((forall r, In r (store.connections t) -> store.id r <> store.ID c') ->
        store.connections t'
        = (store.connections t ++ [store.rowOf c'])%list)
    /\ (forall r, store.id r <> store.ID c' ->
                  (In r (store.connections t')
                   <-> In r (store.connections t))).
Proof.
  intros Hf Hnd. unfold store.SaveConnection. cbv zeta. rewrite Hf.
  match goal with
  | |- exists c' t', (?C, None, ?T) = _ /\ _ => exists C, T
  end.
  split; [reflexivity|].
  split; [destruct (list_eq_dec Byte.byte_eq_dec (store.ID c) []);
          reflexivity|].
  split; [reflexivity|].
  cbn [store.connections].
  match goal with
  | |- context [store.rowOf ?C] => generalize C; intros c'
  end.
  assert (Hid' : store.id (store.rowOf c') = store.ID c') by reflexivity.
  split; [now apply connection_facts.upsertRow_NoDup|].
  split; [|split].
  - intros old Hin Hid. rewrite <- Hid' in Hid.
    destruct (connection_facts.upsertRow_existing (store.rowOf c') old
                (store.connections t) Hnd Hin Hid) as (H1 & H2 & _).
    split; [exact H1|]. split; [reflexivity | exact H2].
  - intros Hfresh. apply connection_facts.upsertRow_fresh.
    intros r Hr. rewrite Hid'. now apply Hfresh.
  - intros r Hr. apply connection_facts.upsertRow_others.
    rewrite Hid'. exact Hr.
Qed.

Lemma store_SaveConnection_upsert_witness :
  exists c' t',
    store.SaveConnection sampleTable (store.scanRow sampleRow) sampleNow
                         sampleUUID = (c', None, t')
    /\ length (store.connections t') = 1%nat.
Proof.
  destruct (store_SaveConnection_upsert sampleTable (store.scanRow sampleRow)
              sampleNow sampleUUID eq_refl)
    as (c' & t' & H1 & H2 & _ & _ & H5 & _).
  - vm_compute. constructor; [intros [] | constructor].
  - exists c', t'. split; [exact H1|].
    apply (H5 sampleRow); [left; reflexivity|].
    rewrite H2. reflexivity.
Defined.

(** X19. With a store at hand and a writable table [DeleteConnection]
    removes exactly the rows under the given ID; a following
    [ListConnections] shows no profile with that ID. *)
Theorem DeleteConnection_removes
        (a : main.App) (s : store.Store) (t : store.Connections) (key : bytes) :
  main.store a = Some s ->
  store.connectionsFailure t = None ->
  exists t',
    main.DeleteConnection a t key = Returns (None, t')
    /\ (forall r, In r (store.connections t')
                  <-> In r (store.connections t) /\ store.id r <> key)
    /\ exists ps,
        main.ListConnections a t' = Returns (ps, None)
        /\ forall p, In p ps -> main.ID p <> key.
Proof.
  intros Hs Hf. unfold main.DeleteConnection, store.DeleteConnection.
  rewrite Hs, Hf. eexists. split; [reflexivity|].
  connection_facts.fields.
  assert (Hrows : forall r,
             In r (filter (fun r0 =>
                             if list_eq_dec Byte.byte_eq_dec (store.id r0) key
                             then false else true) (store.connections t))
             <-> In r (store.connections t) /\ store.id r <> key).
  { intros r. rewrite filter_In.
    destruct (list_eq_dec Byte.byte_eq_dec (store.id r) key);
      intuition congruence. }
  split; [exact Hrows|].
  destruct (connection_facts.ListConnections_returns a s
              {| store.connections :=
                   filter (fun r0 =>
                             if list_eq_dec Byte.byte_eq_dec (store.id r0) key
                             then false else true) (store.connections t);
                 store.connectionsFailure := None |} Hs eq_refl)
    as (ps & Hlist & HF).
  exists ps. split; [exact Hlist|].
  intros p Hp.
  destruct (connection_facts.Forall2_In_r _ _ _ p HF Hp) as (c & Hc & HR).
  apply in_map_iff in Hc as (row & <- & Hrow).
  apply (proj1 (connection_facts.orderRows_In _ _)) in Hrow.
  connection_facts.fields. apply (proj1 (Hrows _)) in Hrow as [_ Hne].
  destruct (connection_facts.revealProfile_returns (main.vault a)
              (store.scanRow row)) as (pwd & ssh & Hrev & _).
  cbn beta in HR. rewrite Hrev in HR.
  assert (Ep : p = profileWith (store.scanRow row) pwd ssh) by congruence.
  subst p. exact Hne.
Qed.

Lemma DeleteConnection_removes_witness :
  exists t',
    main.DeleteConnection unlockedApp sampleTable (store.id sampleRow)
    = Returns (None, t')
    /\ exists ps,
        main.ListConnections unlockedApp t' = Returns (ps, None)
        /\ forall p, In p ps -> main.ID p <> store.id sampleRow.
Proof.
  destruct (DeleteConnection_removes unlockedApp sampleStore sampleTable
              (store.id sampleRow) eq_refl eq_refl) as (t' & H1 & _ & H3).
  exists t'. split; [exact H1 | exact H3].
Defined.


